(** * Snake (Reimagined): the simulation core of [script.js]

    A shallow embedding of the game state and of the functions
    [startNewGame], [placeFood], [stepSnake], [triggerGameOver],
    [spawnEatParticles], [queueDirection], [loop] and the debug helper
    [SnakeGame.stop], followed by the properties of the specification.

    Conventions.
    - Grid coordinates, the score and the growth counter are JavaScript
      numbers that only ever hold small integers: they are [Z].
    - [stepProgress], time stamps and the particle fields are JavaScript
      numbers holding fractions: in the game state they are exact
      rationals [Q], so every statement about them is a statement of
      exact arithmetic. Where the rounding of binary64 decides a
      statement (the pass at which a particle is removed), the particle
      loop is modelled a second time on binary64 numbers, in [B64].
    - [Math.random()] is an oracle: the [k]-th call of a run returns
      [Math_random k], and the state counts the calls made so far.
      [Math.cos], [Math.sin] and [Math.PI] are parameters as well.
    - Arrays are lists: [push] appends at the end, [shift] drops the
      first element, [a[a.length-1]] is [last], [splice(i,1)] is
      [delete i].
    - Reading a field of [undefined] throws a [TypeError]: the functions
      that can do so return [option], with [None] for the exception. *)

From stdpp Require Import list.
From Stdlib Require Import PrimFloat FloatOps SpecFloat.
From Stdlib Require Import ZArith QArith Qround Qminmax Lia Lqa.

Set Warnings "-inexact-float".

Open Scope Z_scope.

(** ** Grid cells and direction vectors: objects [{x, y}] *)

Module Cell.
Record t : Type := mk { x : Z; y : Z }.
End Cell.

Abbreviation cell := Cell.t.

#[global] Instance cell_eq_dec : EqDecision cell.
Proof. solve_decision. Defined.

(** ** Particles: objects [{x, y, vx, vy, life, size}] *)

Module Particle.
Record t : Type :=
  mk { x : Q; y : Q; vx : Q; vy : Q; life : Q; size : Z }.
End Particle.

Abbreviation particle := Particle.t.

(** ** Constants *)

Definition CELL : Z := 14.
Definition GRID_W : Z := 40.
Definition GRID_H : Z := 28.
Definition STEPS_PER_SECOND : Q := 7.5.

Module DIRS.
Definition left : cell := Cell.mk (-1) 0.
Definition right : cell := Cell.mk 1 0.
Definition up : cell := Cell.mk 0 (-1).
Definition down : cell := Cell.mk 0 1.
End DIRS.

(** ** The environment: [Math.random], [Math.cos], [Math.sin], [Math.PI] *)

Record Env : Type := {
  Math_random : nat -> Q;
  Math_cos : Q -> Q;
  Math_sin : Q -> Q;
  Math_PI : Q
}.

(** [Math.random()] returns a number in [[0,1)]. *)
Definition random_in_range (E : Env) : Prop :=
  forall k : nat, (0 <= Math_random E k)%Q /\ (Math_random E k < 1)%Q.

(** ** The game state: the variables of the closure

    [lastNow] is the variable [last] of the main loop; [draws] is the
    number of calls of [Math.random()] made so far. *)

Record State : Type := mkState {
  running : bool;
  playing : bool;
  gameOver : bool;
  score : Z;
  stepProgress : Q;
  snake : list cell;
  prevSnake : list cell;
  dir : cell;
  nextDir : cell;
  grow : Z;
  food : option cell;
  particles : list particle;
  lastNow : Q;
  draws : nat
}.

Definition set_playing (v : bool) (s : State) : State :=
  mkState (running s) v (gameOver s) (score s) (stepProgress s) (snake s)
    (prevSnake s) (dir s) (nextDir s) (grow s) (food s) (particles s)
    (lastNow s) (draws s).

Definition set_gameOver (v : bool) (s : State) : State :=
  mkState (running s) (playing s) v (score s) (stepProgress s) (snake s)
    (prevSnake s) (dir s) (nextDir s) (grow s) (food s) (particles s)
    (lastNow s) (draws s).

Definition set_score (v : Z) (s : State) : State :=
  mkState (running s) (playing s) (gameOver s) v (stepProgress s) (snake s)
    (prevSnake s) (dir s) (nextDir s) (grow s) (food s) (particles s)
    (lastNow s) (draws s).

Definition set_stepProgress (v : Q) (s : State) : State :=
  mkState (running s) (playing s) (gameOver s) (score s) v (snake s)
    (prevSnake s) (dir s) (nextDir s) (grow s) (food s) (particles s)
    (lastNow s) (draws s).

Definition set_snake (v : list cell) (s : State) : State :=
  mkState (running s) (playing s) (gameOver s) (score s) (stepProgress s) v
    (prevSnake s) (dir s) (nextDir s) (grow s) (food s) (particles s)
    (lastNow s) (draws s).

Definition set_prevSnake (v : list cell) (s : State) : State :=
  mkState (running s) (playing s) (gameOver s) (score s) (stepProgress s)
    (snake s) v (dir s) (nextDir s) (grow s) (food s) (particles s)
    (lastNow s) (draws s).

Definition set_dir (v : cell) (s : State) : State :=
  mkState (running s) (playing s) (gameOver s) (score s) (stepProgress s)
    (snake s) (prevSnake s) v (nextDir s) (grow s) (food s) (particles s)
    (lastNow s) (draws s).

Definition set_nextDir (v : cell) (s : State) : State :=
  mkState (running s) (playing s) (gameOver s) (score s) (stepProgress s)
    (snake s) (prevSnake s) (dir s) v (grow s) (food s) (particles s)
    (lastNow s) (draws s).

Definition set_grow (v : Z) (s : State) : State :=
  mkState (running s) (playing s) (gameOver s) (score s) (stepProgress s)
    (snake s) (prevSnake s) (dir s) (nextDir s) v (food s) (particles s)
    (lastNow s) (draws s).

Definition set_food (v : option cell) (s : State) : State :=
  mkState (running s) (playing s) (gameOver s) (score s) (stepProgress s)
    (snake s) (prevSnake s) (dir s) (nextDir s) (grow s) v (particles s)
    (lastNow s) (draws s).

Definition set_particles (v : list particle) (s : State) : State :=
  mkState (running s) (playing s) (gameOver s) (score s) (stepProgress s)
    (snake s) (prevSnake s) (dir s) (nextDir s) (grow s) (food s) v
    (lastNow s) (draws s).

Definition set_lastNow (v : Q) (s : State) : State :=
  mkState (running s) (playing s) (gameOver s) (score s) (stepProgress s)
    (snake s) (prevSnake s) (dir s) (nextDir s) (grow s) (food s)
    (particles s) v (draws s).

Definition set_draws (v : nat) (s : State) : State :=
  mkState (running s) (playing s) (gameOver s) (score s) (stepProgress s)
    (snake s) (prevSnake s) (dir s) (nextDir s) (grow s) (food s)
    (particles s) (lastNow s) v.

(** The state once the script has run to its end: the start screen.
    [t0] is the value of [performance.now()] stored in [last]. *)
Definition init (t0 : Q) : State :=
  mkState true false false 0 0 [] [] DIRS.right DIRS.right 0 None [] t0 0.

(** ** Helpers of the embedding *)

(** [p => ({x: p.x, y: p.y})] *)
Definition copy (p : cell) : cell := Cell.mk (Cell.x p) (Cell.y p).

(** [s => s.x === fx && s.y === fy] *)
Definition sameCell (fx fy : Z) (s : cell) : bool :=
  (Cell.x s =? fx) && (Cell.y s =? fy).

(** The centre of a grid cell on the canvas: [(g + 0.5) * CELL]. *)
Definition centre (g : Z) : Q := (inject_Z g + 0.5) * inject_Z CELL.

Section Game.

Variable E : Env.

(** ** [placeFood]

    The loop [while (tries < 1000)] is a recursion on the number of
    tries that are left, [1000 - tries]. *)

Fixpoint placeFood_while (left : nat) (s : State) : State :=
  match left with
  | O => set_food (Some (Cell.mk 1 1)) s
  | S left' =>
      let fx := Qfloor (Math_random E (draws s) * inject_Z GRID_W) in
      let fy := Qfloor (Math_random E (S (draws s)) * inject_Z GRID_H) in
      let s := set_draws (S (S (draws s))) s in
      let collision := existsb (sameCell fx fy) (snake s) in
      if negb collision then set_food (Some (Cell.mk fx fy)) s
      else placeFood_while left' s
  end.

Definition placeFood (s : State) : State := placeFood_while 1000 s.

(** ** [spawnEatParticles] and [spawnDeathParticles] *)

Definition newParticle (k : nat) (cx cy : Q) : particle :=
  let angle := (Math_random E k * Math_PI E * 2)%Q in
  let speed := (30 + Math_random E (k + 1) * 120)%Q in
  Particle.mk cx cy
    (Math_cos E angle * speed)%Q
    (Math_sin E angle * speed)%Q
    (0.6 + Math_random E (k + 2) * 0.4)%Q
    (1 + Qfloor (Math_random E (k + 3) * 3)).

Fixpoint spawn_for (n : nat) (cx cy : Q) (s : State) : State :=
  match n with
  | O => s
  | S n' =>
      let p := newParticle (draws s) cx cy in
      spawn_for n' cx cy
        (set_draws (draws s + 4) (set_particles (particles s ++ [p]) s))
  end.

Definition spawnEatParticles (gridX gridY : Z) (n : nat) (s : State) : State :=
  spawn_for n (centre gridX) (centre gridY) s.

Definition spawnDeathParticles (gridX gridY : Z) (n : nat) (s : State) : State :=
  spawnEatParticles gridX gridY n s.

(** ** [triggerGameOver] *)

Definition triggerGameOver (s : State) : option State :=
  let s := set_gameOver true s in
  let s := set_playing false s in
  h ← last (snake s);
  Some (spawnDeathParticles (Cell.x h) (Cell.y h) 36 s).

(** ** [stepSnake] *)

Definition newHeadOf (head d : cell) : cell :=
  Cell.mk (Cell.x head + Cell.x d) (Cell.y head + Cell.y d).

Definition outOfGrid (c : cell) : bool :=
  (Cell.x c <? 0) || (Cell.x c >=? GRID_W) || (Cell.y c <? 0) || (Cell.y c >=? GRID_H).

Definition stepSnake (s : State) : option State :=
  let s := set_prevSnake (map copy (snake s)) s in
  head ← last (snake s);
  let newHead := newHeadOf head (dir s) in
  if outOfGrid newHead then triggerGameOver s
  else if existsb (sameCell (Cell.x newHead) (Cell.y newHead)) (snake s)
  then triggerGameOver s
  else
    let s := set_snake (snake s ++ [newHead]) s in
    let s := if grow s >? 0 then set_grow (grow s - 1) s
             else set_snake (tail (snake s)) s in
    match food s with
    | Some f =>
        if (Cell.x newHead =? Cell.x f) && (Cell.y newHead =? Cell.y f) then
          let s := set_score (score s + 10) s in
          let s := set_grow (grow s + 2) s in
          let s := spawnEatParticles (Cell.x f) (Cell.y f) 18 s in
          Some (placeFood s)
        else Some s
    | None => Some s
    end.

(** ** [startNewGame] *)

Definition startNewGame (s : State) : State :=
  let s := set_score 0 s in
  let s := set_gameOver false s in
  let s := set_playing true s in
  let cx := GRID_W / 2 in
  let cy := GRID_H / 2 in
  let s := set_snake [Cell.mk (cx - 3) cy; Cell.mk (cx - 2) cy;
                      Cell.mk (cx - 1) cy; Cell.mk cx cy] s in
  let s := set_prevSnake (map copy (snake s)) s in
  let s := set_dir DIRS.right s in
  let s := set_nextDir (dir s) s in
  let s := set_grow 0 s in
  let s := set_stepProgress 0 s in
  placeFood s.

(** ** [queueDirection] *)

Definition queueDirection (d : cell) (s : State) : State :=
  if ((Cell.x d + Cell.x (dir s) =? 0) && (Cell.y d + Cell.y (dir s) =? 0))
     || ((Cell.x d + Cell.x (nextDir s) =? 0)
         && (Cell.y d + Cell.y (nextDir s) =? 0))
  then s
  else set_nextDir d s.

(** ** The main loop

    The step loop [for (i = 0; i < stepsToDo; i++)] of [loop]. *)

Fixpoint steps_for (n : nat) (s : State) : option State :=
  match n with
  | O => Some s
  | S n' =>
      if negb (playing s) then Some s
      else s' ← stepSnake s; steps_for n' s'
  end.

(** The simulation part of a frame: the block [if (playing) { ... }]. *)
Definition simulate (dt : Q) (s : State) : option State :=
  if playing s then
    let s := if negb (gameOver s) then set_dir (nextDir s) s else s in
    let s := set_stepProgress (stepProgress s + dt * STEPS_PER_SECOND)%Q s in
    if Qle_bool 1 (stepProgress s) then
      let stepsToDo := Qfloor (stepProgress s) in
      let s := set_stepProgress (stepProgress s - inject_Z stepsToDo)%Q s in
      steps_for (Z.to_nat stepsToDo) s
    else Some s
  else Some s.

(** The body of the particle loop for a particle that stays: gravity,
    then position, then drag ([p] already has its new lifetime). *)
Definition physics (dt : Q) (p : particle) : particle :=
  let vy1 := (Particle.vy p + 200 * dt * 0.6)%Q in
  let x1 := (Particle.x p + Particle.vx p * dt)%Q in
  let y1 := (Particle.y p + vy1 * dt)%Q in
  Particle.mk x1 y1 (Particle.vx p * 0.98)%Q (vy1 * 0.98)%Q
    (Particle.life p) (Particle.size p).

(** [p.life -= dt], in exact arithmetic; [B64.age] below is the rounded
    subtraction, used where the pass of a removal matters. *)
Definition age (dt : Q) (p : particle) : particle :=
  Particle.mk (Particle.x p) (Particle.y p) (Particle.vx p) (Particle.vy p)
    (Particle.life p - dt)%Q (Particle.size p).

(** The particle loop [for (i = particles.length - 1; i >= 0; i--)]:
    [particles_for (i + 1) dt ps] runs it from index [i] downwards. *)
Fixpoint particles_for (i1 : nat) (dt : Q) (ps : list particle)
  : option (list particle) :=
  match i1 with
  | O => Some ps
  | S i =>
      p ← ps !! i;
      let p := age dt p in
      if Qle_bool (Particle.life p) 0 then particles_for i dt (delete i ps)
      else particles_for i dt (<[i := physics dt p]> ps)
  end.

Definition updateParticles (dt : Q) (ps : list particle)
  : option (list particle) :=
  particles_for (length ps) dt ps.

(** [loop(now)]; [render()] only reads the state and
    [requestAnimationFrame(loop)] schedules the next frame. *)
Definition loop (now : Q) (s : State) : option State :=
  let dt := Qmin 0.1 ((now - lastNow s) / 1000) in
  let s := set_lastNow now s in
  s ← simulate dt s;
  ps ← updateParticles dt (particles s);
  Some (set_particles ps s).

(** ** Input and the debug helpers *)

Inductive keycode : Type :=
  | Space | ArrowLeft | KeyA | ArrowRight | KeyD
  | ArrowUp | KeyW | ArrowDown | KeyS | OtherKey.

Definition keyDirMap (c : keycode) : option cell :=
  match c with
  | ArrowLeft | KeyA => Some DIRS.left
  | ArrowRight | KeyD => Some DIRS.right
  | ArrowUp | KeyW => Some DIRS.up
  | ArrowDown | KeyS => Some DIRS.down
  | Space | OtherKey => None
  end.

(** The [keydown] listener. *)
Definition keydown (c : keycode) (s : State) : State :=
  let s := match c with
           | Space => if negb (playing s) then startNewGame s else s
           | _ => s
           end in
  match keyDirMap c with
  | Some d => queueDirection d s
  | None => s
  end.

(** [SnakeGame.stop] *)
Definition stop (s : State) : State :=
  set_gameOver true (set_playing false s).

(** What can happen to the page: a key press, an animation frame, a call
    of [SnakeGame.start] or of [SnakeGame.stop] ([SnakeGame.getScore]
    only reads the score). *)
Inductive event : Type :=
  | Keydown (c : keycode)
  | Frame (now : Q)
  | DebugStart
  | DebugStop.

Definition handle (e : event) (s : State) : option State :=
  match e with
  | Keydown c => Some (keydown c s)
  | Frame now => loop now s
  | DebugStart => Some (startNewGame s)
  | DebugStop => Some (stop s)
  end.

Fixpoint run (evs : list event) (s : State) : option State :=
  match evs with
  | [] => Some s
  | e :: evs' => s' ← handle e s; run evs' s'
  end.

End Game.

Arguments newHeadOf : simpl never.

(** ** The particle loop on binary64 numbers

    The same loop, lines 320 to 335 of [script.js], with the fields of a
    particle and the elapsed time as binary64 numbers and every
    operation rounded as JavaScript rounds it. Decimal constants denote
    the nearest binary64 number, as they do in JavaScript. *)

Module B64.

Record particle : Type := mkParticle {
  x : float; y : float; vx : float; vy : float; life : float; size : Z
}.

(** [p.life -= dt] *)
Definition age (dt : float) (p : particle) : particle :=
  mkParticle (x p) (y p) (vx p) (vy p) (life p - dt)%float (size p).

(** [p.vy += 200 * dt * 0.6; p.x += p.vx * dt; p.y += p.vy * dt;
    p.vx *= 0.98; p.vy *= 0.98] *)
Definition physics (dt : float) (p : particle) : particle :=
  let vy1 := (vy p + 200 * dt * 0.6)%float in
  let x1 := (x p + vx p * dt)%float in
  let y1 := (y p + vy1 * dt)%float in
  mkParticle x1 y1 (vx p * 0.98)%float (vy1 * 0.98)%float (life p) (size p).

(** [for (i = particles.length - 1; i >= 0; i--)], from index [i1 - 1]
    downwards; [p.life <= 0] is the comparison of binary64. *)
Fixpoint particles_for (i1 : nat) (dt : float) (ps : list particle)
  : option (list particle) :=
  match i1 with
  | O => Some ps
  | S i =>
      p ← ps !! i;
      let p := age dt p in
      if (life p <=? 0)%float then particles_for i dt (delete i ps)
      else particles_for i dt (<[i := physics dt p]> ps)
  end.

Definition updateParticles (dt : float) (ps : list particle)
  : option (list particle) :=
  particles_for (length ps) dt ps.

(** What one pass does to one particle. *)
Definition integrate1 (dt : float) (p : particle) : option particle :=
  if (life (age dt p) <=? 0)%float then None
  else Some (physics dt (age dt p)).

(** Successive passes, with elapsed times [dts]. *)
Fixpoint updateParticles_seq (dts : list float) (ps : list particle)
  : option (list particle) :=
  match dts with
  | [] => Some ps
  | dt :: dts' => ps' ← updateParticles dt ps; updateParticles_seq dts' ps'
  end.

(** One particle through successive passes: [None] once it is removed. *)
Fixpoint track (dts : list float) (p : particle) : option particle :=
  match dts with
  | [] => Some p
  | dt :: dts' => p' ← integrate1 dt p; track dts' p'
  end.

(** The lifetime [l] after the subtractions [l - dt] of successive
    passes, each rounded. *)
Definition life_after (dts : list float) (l : float) : float :=
  fold_left PrimFloat.sub dts l.

End B64.

(** The rational number that a finite binary64 number is. *)
Definition exact (f : float) : Q :=
  match Prim2SF f with
  | S754_finite s m e => inject_Z (if s then Z.neg m else Z.pos m) * Qpower 2 e
  | _ => 0
  end.

(** * Properties *)

(** ** Vocabulary of the statements *)

(** A cell of the grid: [0 <= x < GRID_W] and [0 <= y < GRID_H]. *)
Definition inGrid (c : cell) : Prop :=
  0 <= Cell.x c < GRID_W /\ 0 <= Cell.y c < GRID_H.

(** The exact reverse of a direction vector. *)
Definition opposite (d : cell) : cell := Cell.mk (- Cell.x d) (- Cell.y d).

(** The cell drawn by try number [k] of a food placement that starts
    when [d] random numbers have been drawn. *)
Definition sampleCell (E : Env) (d k : nat) : cell :=
  Cell.mk (Qfloor (Math_random E (d + 2 * k) * inject_Z GRID_W))
          (Qfloor (Math_random E (d + 2 * k + 1) * inject_Z GRID_H)).

(** The particles of a burst of [n] that starts when [d] random numbers
    have been drawn. *)
Definition burst (E : Env) (d n : nat) (cx cy : Q) : list particle :=
  map (fun i => newParticle E (d + 4 * i) cx cy) (seq 0 n).

(** A particle sits at the centre of a cell. *)
Definition atCell (c : cell) (p : particle) : Prop :=
  Particle.x p = centre (Cell.x c) /\ Particle.y p = centre (Cell.y c).

(** The state of a step that moves after [push] and [shift], before the
    food test: [nh] is the new head. *)
Definition advanced (nh : cell) (s : State) : State :=
  let s1 := set_prevSnake (snake s) s in
  if grow s >? 0 then set_grow (grow s - 1) (set_snake (snake s ++ [nh]) s1)
  else set_snake (tail (snake s ++ [nh])) s1.

(** What one pass of the particle loop does to one particle. *)
Definition integrate1 (dt : Q) (p : particle) : option particle :=
  if Qle_bool (Particle.life (age dt p)) 0 then None
  else Some (physics dt (age dt p)).

(** The part of the state that a simulation step can change, and that a
    finished game must keep. *)
Definition sameGame (s s' : State) : Prop :=
  score s' = score s /\ snake s' = snake s /\ prevSnake s' = prevSnake s /\
  dir s' = dir s /\ grow s' = grow s /\ food s' = food s /\
  stepProgress s' = stepProgress s /\ draws s' = draws s.

(** The events that call [startNewGame]. *)
Definition restarts (e : event) : bool :=
  match e with
  | DebugStart | Keydown Space => true
  | _ => false
  end.

(** The time stamps of the frames of a trace never run backwards, starting
    from the time [t] of the previous frame. *)
Fixpoint clock_ok (t : Q) (evs : list event) : Prop :=
  match evs with
  | [] => True
  | Frame now :: evs' => (t <= now)%Q /\ clock_ok now evs'
  | _ :: evs' => clock_ok t evs'
  end.

(** The invariant of the snake: no cell twice, and a head while the game
    is played. *)
Definition snake_ok (s : State) : Prop :=
  NoDup (snake s) /\ (playing s = true -> snake s <> []).

(** The interpolation factor is a fraction of a step. *)
Definition progress_ok (s : State) : Prop :=
  (0 <= stepProgress s)%Q /\ (stepProgress s < 1)%Q.

(** The elapsed time of a frame, clamped: [Math.min(0.1, (now - last)/1000)]. *)
Definition elapsed (now : Q) (s : State) : Q :=
  Qmin 0.1 ((now - lastNow s) / 1000).

(** The states the page can be in: the start screen, and from there any
    new game, any simulation step, any change of the current direction
    between steps, and any event. *)
Inductive committed (E : Env) : State -> Prop :=
  | committed_init (t0 : Q) : committed E (init t0)
  | committed_start (s : State) : committed E (startNewGame E s)
  | committed_step (s s' : State) :
      committed E s -> stepSnake E s = Some s' -> committed E s'
  | committed_turn (s : State) (d : cell) :
      committed E s -> committed E (set_dir d s)
  | committed_event (s s' : State) (e : event) :
      committed E s -> handle E e s = Some s' -> committed E s'.

(** A step that moves and eats, and a step that moves and does not eat. *)
Definition eatStep (E : Env) (s s' : State) : Prop :=
  exists h, last (snake s) = Some h /\
    inGrid (newHeadOf h (dir s)) /\ (newHeadOf h (dir s) ∉ snake s) /\
    food s = Some (newHeadOf h (dir s)) /\ stepSnake E s = Some s'.

Definition quietStep (E : Env) (s s' : State) : Prop :=
  exists h, last (snake s) = Some h /\
    inGrid (newHeadOf h (dir s)) /\ (newHeadOf h (dir s) ∉ snake s) /\
    food s <> Some (newHeadOf h (dir s)) /\ stepSnake E s = Some s'.

(** [n] steps in a row that move and do not eat; the current direction
    may change before each of them. *)
Inductive quietSteps (E : Env) : nat -> State -> State -> Prop :=
  | quiet_none (s : State) : quietSteps E 0 s s
  | quiet_more (n : nat) (s s1 s' : State) (d : cell) :
      quietStep E (set_dir d s) s1 -> quietSteps E n s1 s' ->
      quietSteps E (S n) s s'.

(** Cumulative elapsed time. *)
Definition Qsum (dts : list Q) : Q := foldr Qplus 0%Q dts.

(** ** Vocabulary of the further properties *)

(** One of the four direction vectors of [DIRS]. *)
Definition isDir (d : cell) : Prop :=
  d = DIRS.left \/ d = DIRS.right \/ d = DIRS.up \/ d = DIRS.down.

(** Two cells that share a side, and two cells that are equal or share a
    side. *)
Definition adjacent (a b : cell) : Prop :=
  Z.abs (Cell.x a - Cell.x b) + Z.abs (Cell.y a - Cell.y b) = 1.

Definition near (a b : cell) : Prop :=
  Z.abs (Cell.x a - Cell.x b) + Z.abs (Cell.y a - Cell.y b) <= 1.

(** Each segment shares a side with the next one. *)
Definition connected (l : list cell) : Prop :=
  forall (i : nat) (a b : cell),
    l !! i = Some a -> l !! S i = Some b -> adjacent a b.

(** What holds of the game in every state of a run. *)
Record game_inv (s : State) : Prop := {
  inv_running : running s = true;
  inv_phase : playing s = true -> gameOver s = false /\ snake s <> [];
  inv_dir : isDir (dir s);
  inv_nextDir : isDir (nextDir s);
  inv_no_reverse : nextDir s <> opposite (dir s);
  inv_grid : Forall inGrid (snake s);
  inv_prev_grid : Forall inGrid (prevSnake s);
  inv_connected : connected (snake s);
  inv_smooth : forall (i : nat) (a b : cell),
      prevSnake s !! i = Some a -> snake s !! i = Some b -> near a b;
  inv_account :
    (snake s = [] /\ score s = 0 /\ grow s = 0) \/
    ((4 <= length (snake s))%nat /\ 0 <= grow s /\
     score s = 5 * (Z.of_nat (length (snake s)) + grow s - 4))
}.

(** The food is missing before the first game and a cell of the grid
    afterwards. *)
Definition food_ok (s : State) : Prop :=
  (snake s = [] /\ food s = None) \/
  (snake s <> [] /\ exists c, food s = Some c /\ inGrid c).

(** The assignments and calls that the handlers are made of. [D] says
    which elapsed times a pass of the particle loop may have. *)
Inductive prim (E : Env) (D : Q -> Prop) : State -> State -> Prop :=
  | prim_start (s : State) : prim E D s (startNewGame E s)
  | prim_queue (s : State) (d : cell) :
      isDir d -> prim E D s (queueDirection d s)
  | prim_commit (s : State) :
      playing s = true -> gameOver s = false ->
      prim E D s (set_dir (nextDir s) s)
  | prim_progress (s : State) (q : Q) : prim E D s (set_stepProgress q s)
  | prim_last (s : State) (t : Q) : prim E D s (set_lastNow t s)
  | prim_step (s s' : State) :
      playing s = true -> stepSnake E s = Some s' -> prim E D s s'
  | prim_particles (s : State) (dt : Q) :
      D dt ->
      prim E D s (set_particles (omap (integrate1 dt) (particles s)) s)
  | prim_stop (s : State) : prim E D s (stop s).

(** The elapsed time of an event, if it is a frame, is in [D]. *)
Definition event_in (D : Q -> Prop) (e : event) (s : State) : Prop :=
  match e with
  | Frame now => D (elapsed now s)
  | _ => True
  end.

(** [lerp(a, b, t)] and [Math.round], which rounds halves up. *)
Definition lerp (a b t : Q) : Q := (a + (b - a) * t)%Q.

Definition Math_round (q : Q) : Z := Qfloor (q + 0.5).

(** The snake loop of [render]: the corner [(px, py)] of the square
    [fillRect(px, py, CELL, CELL)] drawn for each segment, in order.
    [prev[i] || curPos] is the previous position if there is one. *)
Definition renderSnake (s : State) : list (Z * Z) :=
  imap (fun i curPos =>
          let prevPos := default curPos (prevSnake s !! i) in
          let ix := lerp (inject_Z (Cell.x prevPos)) (inject_Z (Cell.x curPos))
                      (stepProgress s) in
          let iy := lerp (inject_Z (Cell.y prevPos)) (inject_Z (Cell.y curPos))
                      (stepProgress s) in
          (Math_round (ix * inject_Z CELL), Math_round (iy * inject_Z CELL)))
       (snake s).

(** [drawCell(food.x, food.y, true)]: the corner of the food square. *)
Definition renderFood (s : State) : option (Z * Z) :=
  f ← food s; Some (Cell.x f * CELL, Cell.y f * CELL).

(** A square of side [CELL] with corner [(px, py)] lies on the canvas,
    which is [GRID_W * CELL] wide and [GRID_H * CELL] high. *)
Definition onCanvas (r : Z * Z) : Prop :=
  0 <= fst r /\ fst r + CELL <= GRID_W * CELL /\
  0 <= snd r /\ snd r + CELL <= GRID_H * CELL.

(** A particle as a burst makes it and the particle loop keeps it. *)
Definition alive (p : particle) : Prop :=
  (0 < Particle.life p)%Q /\ (Particle.life p < 1)%Q /\
  1 <= Particle.size p <= 3.

(** ** Concrete environments and states, for evaluation

    [Math.cos] and [Math.sin] only feed the velocities of the particles;
    the identity stands for them where a run is evaluated. *)

(** Every call returns 0.5, but call 0 returns 0.525 and call 74 returns
    0.55: the first food lands on (21,14) and the second on (22,14). *)
Definition random_demo (k : nat) : Q :=
  if (k =? 0)%nat then 0.525%Q else if (k =? 74)%nat then 0.55%Q else 0.5%Q.

Definition E_demo : Env := Build_Env random_demo (fun a => a) (fun a => a) 3%Q.

(** Every call returns 0.04: every sampled cell is (1,1). *)
Definition E_const : Env :=
  Build_Env (fun _ => 0.04%Q) (fun a => a) (fun a => a) 3%Q.

(** A game in which the head is on the right border, moving right. *)
Definition at_wall : State :=
  mkState true true false 0 0%Q
    [Cell.mk 36 14; Cell.mk 37 14; Cell.mk 38 14; Cell.mk 39 14]
    [Cell.mk 35 14; Cell.mk 36 14; Cell.mk 37 14; Cell.mk 38 14]
    DIRS.right DIRS.right 0 (Some (Cell.mk 5 5)) [] 0%Q 2.

(** A game with the first food right in front of the head. *)
Definition hungry : State :=
  mkState true true false 0 0%Q
    [Cell.mk 5 5; Cell.mk 6 5; Cell.mk 7 5; Cell.mk 8 5]
    [Cell.mk 4 5; Cell.mk 5 5; Cell.mk 6 5; Cell.mk 7 5]
    DIRS.right DIRS.right 0 (Some (Cell.mk 9 5)) [] 0%Q 2.

(** A particle at the centre of cell (0,0) with a lifetime of 0.6 s, and
    six and seven passes of 0.1 s. *)
Definition ember : B64.particle :=
  B64.mkParticle 7%float 7%float 10%float 0%float 0.6%float 1.

Definition six_passes : list float := [0.1; 0.1; 0.1; 0.1; 0.1; 0.1]%float.
Definition seven_passes : list float := (0.1%float :: six_passes).

(** A game that has grown once and has one segment still to gain, with
    the food right in front of the head. *)
Definition peckish : State :=
  mkState true true false 10 0%Q
    [Cell.mk 4 5; Cell.mk 5 5; Cell.mk 6 5; Cell.mk 7 5; Cell.mk 8 5]
    [Cell.mk 4 5; Cell.mk 5 5; Cell.mk 6 5; Cell.mk 7 5]
    DIRS.right DIRS.right 1 (Some (Cell.mk 9 5)) [] 0%Q 76.

(** A game that has just started, in the demo environment. *)
Definition started : State := startNewGame E_demo (init 0%Q).

(** The state after a step that is known to return. *)
Definition stepped (E : Env) (s : State) : State :=
  default s (stepSnake E s).

(** [hungry] after its meal, and three steps later. *)
Definition hungry1 : State := stepped E_const hungry.
Definition hungry4 : State :=
  stepped E_const (stepped E_const (stepped E_const hungry1)).

(** [peckish] after its meal, and three steps later. *)
Definition peckish1 : State := stepped E_const peckish.
Definition peckish4 : State :=
  stepped E_const (stepped E_const (stepped E_const peckish1)).

(** [started] after one to six steps. *)
Definition started1 : State := stepped E_demo started.
Definition started2 : State := stepped E_demo started1.
Definition started3 : State := stepped E_demo started2.
Definition started4 : State := stepped E_demo started3.
Definition started5 : State := stepped E_demo started4.
Definition started6 : State := stepped E_demo started5.

(** In the constant environment the first food is on (1,1). The snake
    of a new game turns up, takes 13 steps, turns left and takes 18
    steps: its head is then on (2,1), next to the food. *)
Definition near_food : State :=
  Nat.iter 18 (stepped E_const)
    (set_dir DIRS.left
       (Nat.iter 13 (stepped E_const)
          (set_dir DIRS.up (startNewGame E_const (init 0%Q))))).

(** [started] half a step later, and the frame that comes 100 ms after
    the start: the first step is due in it. *)
Definition halfway : State := set_stepProgress 0.5%Q started.
Definition halfway_framed : State := default halfway (loop E_demo 100 halfway).

(** The player presses Space and Up; a frame comes 20 ms later, well
    before the first step is due. *)
Definition turn_up : list event :=
  [Keydown Space; Keydown ArrowUp; Frame 20].

(** The player then presses Left; frames follow every 20 ms until the
    first step is due, at 140 ms. *)
Definition turn_back : list event :=
  turn_up ++ [Keydown ArrowLeft; Frame 40; Frame 60; Frame 80; Frame 100;
              Frame 120; Frame 140].

(** ** Basic facts *)

Ltac unfold_setters :=
  cbv [set_playing set_gameOver set_score set_stepProgress set_snake
       set_prevSnake set_dir set_nextDir set_grow set_food set_particles
       set_lastNow set_draws] in *.

(** Two states built from the same record by different setters. *)
Ltac state_eq s :=
  destruct s; cbn; unfold_setters; cbn; f_equal; try lia.

Lemma cell_eta (c : cell) : Cell.mk (Cell.x c) (Cell.y c) = c.
Proof. destruct c; reflexivity. Qed.

Lemma cell_mk_inj (a b c d : Z) :
  Cell.mk a b = Cell.mk c d <-> a = c /\ b = d.
Proof. split; [intros [= -> ->]; auto | intros [-> ->]; reflexivity]. Qed.

Lemma map_copy (l : list cell) : map copy l = l.
Proof.
  induction l as [|c l IH]; [reflexivity|].
  cbn [map]. rewrite IH. unfold copy. now rewrite cell_eta.
Qed.

Lemma sameCell_true (c d : cell) :
  sameCell (Cell.x c) (Cell.y c) d = true <-> d = c.
Proof.
  unfold sameCell. rewrite andb_true_iff, !Z.eqb_eq.
  destruct c, d; cbn. rewrite cell_mk_inj. tauto.
Qed.

Lemma existsb_sameCell (c : cell) (l : list cell) :
  existsb (sameCell (Cell.x c) (Cell.y c)) l = true <-> c ∈ l.
Proof.
  rewrite existsb_exists, list_elem_of_In. split.
  - intros (d & Hd & Hs). apply sameCell_true in Hs. now subst.
  - intros Hc. exists c. split; [assumption|]. now apply sameCell_true.
Qed.

Lemma existsb_sameCell_false (c : cell) (l : list cell) :
  existsb (sameCell (Cell.x c) (Cell.y c)) l = false <-> c ∉ l.
Proof.
  rewrite <- existsb_sameCell. destruct (existsb _ l); split; congruence.
Qed.

Lemma outOfGrid_true (c : cell) : outOfGrid c = true <-> ~ inGrid c.
Proof.
  unfold outOfGrid, inGrid, GRID_W, GRID_H.
  rewrite !orb_true_iff, !Z.ltb_lt, !Z.geb_le. lia.
Qed.

Lemma outOfGrid_false (c : cell) : outOfGrid c = false <-> inGrid c.
Proof.
  unfold outOfGrid, inGrid, GRID_W, GRID_H.
  rewrite !orb_false_iff, !Z.ltb_ge, !Z.geb_leb, !Z.leb_gt. lia.
Qed.

Lemma opposite_DIRS :
  opposite DIRS.left = DIRS.right /\ opposite DIRS.right = DIRS.left /\
  opposite DIRS.up = DIRS.down /\ opposite DIRS.down = DIRS.up.
Proof. repeat split. Qed.

Lemma burst_length (E : Env) (d n : nat) (cx cy : Q) :
  length (burst E d n cx cy) = n.
Proof. unfold burst. now rewrite length_map, length_seq. Qed.

Lemma burst_atCell (E : Env) (d n : nat) (c : cell) :
  Forall (atCell c) (burst E d n (centre (Cell.x c)) (centre (Cell.y c))).
Proof.
  unfold burst. apply Forall_forall. intros p Hp.
  apply list_elem_of_In, in_map_iff in Hp. destruct Hp as (i & <- & _).
  split; reflexivity.
Qed.

Lemma burst_S (E : Env) (d n : nat) (cx cy : Q) :
  burst E d (S n) cx cy = newParticle E d cx cy :: burst E (d + 4) n cx cy.
Proof.
  unfold burst. cbn [seq map]. rewrite <- seq_shift, map_map.
  f_equal; [f_equal; lia|].
  apply map_ext. intros i. f_equal. lia.
Qed.

Section Facts.

Variable E : Env.

(** *** [spawnEatParticles] appends a burst and draws four numbers per
    particle *)

Lemma spawn_for_spec (n : nat) (cx cy : Q) (s : State) :
  spawn_for E n cx cy s =
  set_draws (draws s + 4 * n)
    (set_particles (particles s ++ burst E (draws s) n cx cy) s).
Proof.
  revert s. induction n as [|n IH]; intros s.
  - cbn [spawn_for burst seq map]. rewrite app_nil_r. state_eq s.
  - cbn [spawn_for]. rewrite IH, burst_S.
    destruct s; unfold_setters; cbn.
    rewrite <- app_assoc. cbn [app]. f_equal. lia.
Qed.

(** *** [placeFood] *)

Lemma Qfloor_scaled (r : Q) (n : Z) :
  (0 <= r)%Q -> (r < 1)%Q -> 0 < n -> 0 <= Qfloor (r * inject_Z n) < n.
Proof.
  intros H0 H1 Hn.
  assert (Hq : (0 < inject_Z n)%Q) by (now rewrite (Zlt_Qlt 0 n) in Hn).
  split.
  - change 0 with (Qfloor 0). apply Qfloor_resp_le. nra.
  - rewrite Zlt_Qlt.
    apply Qle_lt_trans with (r * inject_Z n)%Q; [apply Qfloor_le | nra].
Qed.

Lemma sampleCell_inGrid (d k : nat) :
  random_in_range E -> inGrid (sampleCell E d k).
Proof.
  intros Hr. unfold inGrid, sampleCell. cbn [Cell.x Cell.y].
  split; apply Qfloor_scaled; try apply Hr; reflexivity.
Qed.

Lemma placeFood_while_spec (n : nat) (s : State) :
  (exists k : nat, (k < n)%nat /\
     (forall j : nat, (j < k)%nat -> sampleCell E (draws s) j ∈ snake s) /\
     (sampleCell E (draws s) k ∉ snake s) /\
     placeFood_while E n s =
       set_food (Some (sampleCell E (draws s) k))
         (set_draws (draws s + 2 * (k + 1)) s))
  \/ ((forall j : nat, (j < n)%nat -> sampleCell E (draws s) j ∈ snake s) /\
      placeFood_while E n s =
        set_food (Some (Cell.mk 1 1)) (set_draws (draws s + 2 * n) s)).
Proof.
  revert s. induction n as [|n IH]; intros s.
  - right. split; [intros j Hj; lia|].
    state_eq s.
  - cbn [placeFood_while].
    assert (Hc : Cell.mk (Qfloor (Math_random E (draws s) * inject_Z GRID_W))
                   (Qfloor (Math_random E (S (draws s)) * inject_Z GRID_H))
                 = sampleCell E (draws s) 0).
    { unfold sampleCell. do 4 f_equal; lia. }
    assert (Hshift : forall j, sampleCell E (S (S (draws s))) j
                               = sampleCell E (draws s) (S j)).
    { intros j. unfold sampleCell. do 4 f_equal; lia. }
    rewrite Hc.
    replace (snake (set_draws (S (S (draws s))) s)) with (snake s)
      by reflexivity.
    change (existsb (sameCell (Qfloor (Math_random E (draws s) * inject_Z GRID_W))
                      (Qfloor (Math_random E (S (draws s)) * inject_Z GRID_H))))
      with (existsb (sameCell (Cell.x (Cell.mk
                      (Qfloor (Math_random E (draws s) * inject_Z GRID_W))
                      (Qfloor (Math_random E (S (draws s)) * inject_Z GRID_H))))
                      (Cell.y (Cell.mk
                      (Qfloor (Math_random E (draws s) * inject_Z GRID_W))
                      (Qfloor (Math_random E (S (draws s)) * inject_Z GRID_H)))))).
    rewrite Hc.
    destruct (existsb _ (snake s)) eqn:Hex; cbn [negb].
    + apply existsb_sameCell in Hex.
      destruct (IH (set_draws (S (S (draws s))) s))
        as [(k & Hk & Hbefore & Hfree & Heq) | (Hall & Heq)];
        cbn [draws snake set_draws] in *.
      * left. exists (S k). split; [lia|]. split; [|split].
        -- intros [|j] Hj; [assumption|]. rewrite <- Hshift. apply Hbefore. lia.
        -- now rewrite <- Hshift.
        -- rewrite Heq, Hshift. state_eq s.
      * right. split.
        -- intros [|j] Hj; [assumption|]. rewrite <- Hshift. apply Hall. lia.
        -- rewrite Heq. state_eq s.
    + apply existsb_sameCell_false in Hex.
      left. exists 0%nat. split; [lia|]. split; [|split].
      * intros j Hj; lia.
      * assumption.
      * state_eq s.
Qed.

Lemma placeFood_cases (s : State) :
  (exists k : nat, (k < 1000)%nat /\
     (forall j : nat, (j < k)%nat -> sampleCell E (draws s) j ∈ snake s) /\
     (sampleCell E (draws s) k ∉ snake s) /\
     placeFood E s =
       set_food (Some (sampleCell E (draws s) k))
         (set_draws (draws s + 2 * (k + 1)) s))
  \/ ((forall j : nat, (j < 1000)%nat -> sampleCell E (draws s) j ∈ snake s) /\
      placeFood E s =
        set_food (Some (Cell.mk 1 1)) (set_draws (draws s + 2 * 1000) s)).
Proof. exact (placeFood_while_spec 1000 s). Qed.

Lemma placeFood_frame (s : State) :
  exists (c : cell) (d : nat),
    placeFood E s = set_food (Some c) (set_draws d s).
Proof.
  destruct (placeFood_cases s) as [(k & _ & _ & _ & ->) | (_ & ->)]; eauto.
Qed.

(** *** [stepSnake]: the two ways a step can go *)

Lemma stepSnake_collides (s : State) (h : cell) :
  last (snake s) = Some h ->
  ~ inGrid (newHeadOf h (dir s)) \/ newHeadOf h (dir s) ∈ snake s ->
  stepSnake E s =
  Some (set_draws (draws s + 4 * 36)
          (set_particles
             (particles s ++
              burst E (draws s) 36 (centre (Cell.x h)) (centre (Cell.y h)))
             (set_playing false (set_gameOver true
                (set_prevSnake (snake s) s))))).
Proof.
  intros Hh Hc. unfold stepSnake. rewrite map_copy.
  cbn [snake set_prevSnake dir]. rewrite Hh. cbn [mbind option_bind].
  assert (Ht : triggerGameOver E (set_prevSnake (snake s) s) =
    Some (set_draws (draws s + 4 * 36)
          (set_particles
             (particles s ++
              burst E (draws s) 36 (centre (Cell.x h)) (centre (Cell.y h)))
             (set_playing false (set_gameOver true
                (set_prevSnake (snake s) s)))))).
  { unfold triggerGameOver. cbn [snake set_playing set_gameOver set_prevSnake].
    rewrite Hh. cbn [mbind option_bind].
    unfold spawnDeathParticles, spawnEatParticles. now rewrite spawn_for_spec. }
  destruct (outOfGrid (newHeadOf h (dir s))) eqn:Hout; [exact Ht|].
  destruct (existsb _ (snake s)) eqn:Hself; [exact Ht|].
  apply outOfGrid_false in Hout. apply existsb_sameCell_false in Hself.
  tauto.
Qed.

Lemma stepSnake_moves (s : State) (h : cell) :
  last (snake s) = Some h ->
  inGrid (newHeadOf h (dir s)) ->
  newHeadOf h (dir s) ∉ snake s ->
  stepSnake E s =
  Some (let nh := newHeadOf h (dir s) in
        if bool_decide (food s = Some nh) then
          placeFood E
            (spawnEatParticles E (Cell.x nh) (Cell.y nh) 18
               (set_grow (grow (advanced nh s) + 2)
                  (set_score (score s + 10) (advanced nh s))))
        else advanced nh s).
Proof.
  intros Hh Hin Hfree. unfold stepSnake. rewrite map_copy.
  cbn [snake set_prevSnake dir]. rewrite Hh. cbn [mbind option_bind].
  apply outOfGrid_false in Hin. apply existsb_sameCell_false in Hfree.
  rewrite Hin, Hfree. cbv zeta.
  set (nh := newHeadOf h (dir s)).
  match goal with
  | |- context [if ?c >? 0 then ?a else ?b] =>
      set (adv := if c >? 0 then a else b)
  end.
  assert (Ha : adv = advanced nh s).
  { subst adv. unfold advanced. cbn [grow snake set_snake set_prevSnake].
    destruct (grow s >? 0); state_eq s. }
  clearbody adv. subst adv.
  assert (Hf : food (advanced nh s) = food s).
  { unfold advanced. destruct (grow s >? 0); reflexivity. }
  assert (Hs : score (advanced nh s) = score s).
  { unfold advanced. destruct (grow s >? 0); reflexivity. }
  rewrite Hf. destruct (food s) as [f|].
  - destruct ((Cell.x nh =? Cell.x f) && (Cell.y nh =? Cell.y f)) eqn:Heat.
    + apply andb_true_iff in Heat. rewrite !Z.eqb_eq in Heat.
      assert (nh = f) as <-.
      { destruct nh, f; cbn in Heat. now apply cell_mk_inj. }
      rewrite bool_decide_eq_true_2 by reflexivity.
      cbn [score grow set_score set_grow]. now rewrite Hs.
    + rewrite bool_decide_eq_false_2; [reflexivity|].
      intros [= <-]. rewrite !Z.eqb_refl in Heat. discriminate.
  - rewrite bool_decide_eq_false_2; [reflexivity | discriminate].
Qed.

(** Every step of a snake with a head is a collision or a move. *)
Lemma stepSnake_cases (s : State) (h : cell) :
  last (snake s) = Some h ->
  (~ inGrid (newHeadOf h (dir s)) \/ newHeadOf h (dir s) ∈ snake s)
  \/ (inGrid (newHeadOf h (dir s)) /\ newHeadOf h (dir s) ∉ snake s).
Proof.
  intros _.
  destruct (outOfGrid (newHeadOf h (dir s))) eqn:Hout.
  - apply outOfGrid_true in Hout. tauto.
  - apply outOfGrid_false in Hout.
    destruct (decide (newHeadOf h (dir s) ∈ snake s)); tauto.
Qed.

(** The fields of the state after the eating part of a step. *)
Lemma eaten_fields (nh : cell) (sc : Z) (a : State) :
  let s' := placeFood E (spawnEatParticles E (Cell.x nh) (Cell.y nh) 18
              (set_grow (grow a + 2) (set_score sc a))) in
  running s' = running a /\ playing s' = playing a /\
  gameOver s' = gameOver a /\ score s' = sc /\
  stepProgress s' = stepProgress a /\ snake s' = snake a /\
  prevSnake s' = prevSnake a /\ dir s' = dir a /\ nextDir s' = nextDir a /\
  grow s' = grow a + 2 /\ lastNow s' = lastNow a /\
  particles s' =
    particles a ++ burst E (draws a) 18 (centre (Cell.x nh)) (centre (Cell.y nh)).
Proof.
  intros s'. subst s'.
  destruct (placeFood_frame (spawnEatParticles E (Cell.x nh) (Cell.y nh) 18
              (set_grow (grow a + 2) (set_score sc a)))) as (c & d & ->).
  unfold spawnEatParticles. rewrite spawn_for_spec.
  repeat split.
Qed.

Lemma advanced_fields (nh : cell) (s : State) :
  let a := advanced nh s in
  running a = running s /\ playing a = playing s /\
  gameOver a = gameOver s /\ score a = score s /\
  stepProgress a = stepProgress s /\ prevSnake a = snake s /\
  dir a = dir s /\ nextDir a = nextDir s /\ food a = food s /\
  particles a = particles s /\ lastNow a = lastNow s /\ draws a = draws s /\
  snake a = (if grow s >? 0 then snake s ++ [nh] else tail (snake s ++ [nh])) /\
  grow a = (if grow s >? 0 then grow s - 1 else grow s).
Proof.
  unfold advanced. destruct (grow s >? 0); repeat split.
Qed.

(** *** The particle loop is a pass of [integrate1] over the array *)

Lemma particles_for_app (dt : Q) (l1 l2 : list particle) :
  particles_for (length l1) dt (l1 ++ l2)
  = Some (omap (integrate1 dt) l1 ++ l2).
Proof.
  revert l2. induction l1 as [|p l IH] using rev_ind; intros l2.
  - reflexivity.
  - rewrite length_app, Nat.add_1_r. cbn [length particles_for].
    rewrite <- app_assoc. cbn [app].
    rewrite list_lookup_middle by reflexivity. cbn [mbind option_bind].
    rewrite omap_app. cbn [omap list_omap]. unfold integrate1 at 2.
    destruct (Qle_bool (Particle.life (age dt p)) 0).
    + rewrite delete_middle, IH, app_nil_r. reflexivity.
    + assert (Hi : <[length l := physics dt (age dt p)]> (l ++ p :: l2)
                   = l ++ physics dt (age dt p) :: l2).
      { rewrite <- (Nat.add_0_r (length l)) at 1. now rewrite insert_app_r. }
      rewrite Hi, IH, <- app_assoc. reflexivity.
Qed.

Lemma updateParticles_spec (dt : Q) (ps : list particle) :
  updateParticles dt ps = Some (omap (integrate1 dt) ps).
Proof.
  unfold updateParticles.
  rewrite <- (app_nil_r ps) at 2. rewrite particles_for_app.
  now rewrite app_nil_r.
Qed.

(** *** The driver while the game is not being played *)

Lemma steps_for_not_playing (n : nat) (s : State) :
  playing s = false -> steps_for E n s = Some s.
Proof.
  intros Hp. destruct n; cbn [steps_for]; [reflexivity | now rewrite Hp].
Qed.

Lemma loop_not_playing (now : Q) (s : State) :
  playing s = false ->
  loop E now s =
  Some (set_particles
          (omap (integrate1 (Qmin 0.1 ((now - lastNow s) / 1000)))
                (particles s))
          (set_lastNow now s)).
Proof.
  intros Hp. unfold loop, simulate. cbn [playing set_lastNow]. rewrite Hp.
  cbn [mbind option_bind particles lastNow]. rewrite updateParticles_spec.
  reflexivity.
Qed.

(** *** What a step changes *)

Lemma stepSnake_None (s : State) :
  last (snake s) = None -> stepSnake E s = None.
Proof.
  intros Hh. unfold stepSnake. rewrite map_copy.
  cbn [snake set_prevSnake]. now rewrite Hh.
Qed.

Lemma stepSnake_head (s s' : State) :
  stepSnake E s = Some s' -> exists h, last (snake s) = Some h.
Proof.
  intros Hs. destruct (last (snake s)) as [h|] eqn:Hh; [eauto|].
  rewrite (stepSnake_None s Hh) in Hs. discriminate.
Qed.

Lemma stepSnake_frame (s s' : State) :
  stepSnake E s = Some s' ->
  running s' = running s /\ stepProgress s' = stepProgress s /\
  dir s' = dir s /\ nextDir s' = nextDir s /\ lastNow s' = lastNow s.
Proof.
  intros Hs. destruct (stepSnake_head s s' Hs) as [h Hh].
  destruct (stepSnake_cases s h Hh) as [Hc | [Hin Hfree]].
  - rewrite (stepSnake_collides s h Hh Hc) in Hs. injection Hs as <-.
    repeat split.
  - rewrite (stepSnake_moves s h Hh Hin Hfree) in Hs.
    apply (inj Some) in Hs. subst s'.
    cbv zeta. destruct (advanced_fields (newHeadOf h (dir s)) s)
      as (Ha1 & _ & _ & _ & Ha5 & _ & Ha7 & Ha8 & _ & _ & Ha11 & _).
    destruct (bool_decide _).
    + destruct (eaten_fields (newHeadOf h (dir s)) (score s + 10)
                  (advanced (newHeadOf h (dir s)) s))
        as (He1 & _ & _ & _ & He5 & _ & _ & He8 & He9 & _ & He11 & _).
      rewrite He1, He5, He8, He9, He11. auto.
    + auto.
Qed.

Lemma stepSnake_snake (s s' : State) :
  stepSnake E s = Some s' ->
  snake s <> [] /\
  (snake s' = snake s \/
   exists nh, (nh ∉ snake s) /\
     snake s' = if grow s >? 0 then snake s ++ [nh] else tail (snake s ++ [nh])).
Proof.
  intros Hs. destruct (stepSnake_head s s' Hs) as [h Hh].
  split; [intros Hnil; rewrite Hnil in Hh; discriminate|].
  destruct (stepSnake_cases s h Hh) as [Hc | [Hin Hfree]].
  - rewrite (stepSnake_collides s h Hh Hc) in Hs. injection Hs as <-.
    left. reflexivity.
  - rewrite (stepSnake_moves s h Hh Hin Hfree) in Hs.
    apply (inj Some) in Hs. subst s'.
    right. exists (newHeadOf h (dir s)). split; [assumption|].
    cbv zeta. destruct (advanced_fields (newHeadOf h (dir s)) s)
      as (_ & _ & _ & _ & _ & _ & _ & _ & _ & _ & _ & _ & Ha13 & _).
    destruct (bool_decide _).
    + destruct (eaten_fields (newHeadOf h (dir s)) (score s + 10)
                  (advanced (newHeadOf h (dir s)) s))
        as (_ & _ & _ & _ & _ & He6 & _).
      now rewrite He6.
    + assumption.
Qed.

Lemma tail_snoc_nonempty (l : list cell) (c : cell) :
  l <> [] -> tail (l ++ [c]) <> [].
Proof. destruct l as [|a [|b l]]; cbn; congruence. Qed.

Lemma NoDup_tail (l : list cell) : NoDup l -> NoDup (tail l).
Proof. destruct l; cbn; [auto | apply NoDup_cons_1_2]. Qed.

Lemma NoDup_snoc (l : list cell) (c : cell) :
  NoDup l -> c ∉ l -> NoDup (l ++ [c]).
Proof.
  intros Hl Hc. apply NoDup_app. split; [assumption|]. split.
  - intros x Hx Hx'. apply list_elem_of_singleton in Hx'. now subst.
  - apply NoDup_singleton.
Qed.

Lemma stepSnake_NoDup (s s' : State) :
  stepSnake E s = Some s' -> NoDup (snake s) -> NoDup (snake s').
Proof.
  intros Hs Hnd. destruct (stepSnake_snake s s' Hs) as [_ [-> | (nh & Hnh & ->)]].
  - assumption.
  - destruct (grow s >? 0); [|apply NoDup_tail]; now apply NoDup_snoc.
Qed.

Lemma stepSnake_nonempty (s s' : State) :
  stepSnake E s = Some s' -> snake s' <> [].
Proof.
  intros Hs. destruct (stepSnake_snake s s' Hs) as [Hne [-> | (nh & Hnh & ->)]].
  - assumption.
  - destruct (grow s >? 0); [|now apply tail_snoc_nonempty].
    destruct (snake s); discriminate.
Qed.

Lemma stepSnake_defined (s : State) :
  snake s <> [] -> exists s', stepSnake E s = Some s'.
Proof.
  intros Hne. destruct (last (snake s)) as [h|] eqn:Hh.
  - destruct (stepSnake_cases s h Hh) as [Hc | [Hin Hfree]].
    + rewrite (stepSnake_collides s h Hh Hc). eauto.
    + rewrite (stepSnake_moves s h Hh Hin Hfree). eauto.
  - apply last_None in Hh. contradiction.
Qed.

Lemma stepSnake_ok (s s' : State) :
  stepSnake E s = Some s' -> snake_ok s -> snake_ok s'.
Proof.
  intros Hs [Hnd _]. split.
  - eapply stepSnake_NoDup; eassumption.
  - intros _. eapply stepSnake_nonempty; eassumption.
Qed.

(** *** The step loop and the simulation part of a frame *)

Lemma steps_for_inv (P : State -> Prop) :
  (forall s s', stepSnake E s = Some s' -> P s -> P s') ->
  forall n s s', steps_for E n s = Some s' -> P s -> P s'.
Proof.
  intros Hstep n. induction n as [|n IH]; intros s s' Hrun HP;
    cbn [steps_for] in Hrun.
  - now injection Hrun as <-.
  - destruct (playing s); cbn [negb] in Hrun; [|now injection Hrun as <-].
    destruct (stepSnake E s) as [s1|] eqn:Hs; [|discriminate].
    cbn [mbind option_bind] in Hrun. eauto.
Qed.

Lemma steps_for_defined (n : nat) (s : State) :
  (playing s = true -> snake s <> []) -> exists s', steps_for E n s = Some s'.
Proof.
  revert s. induction n as [|n IH]; intros s Hne; cbn [steps_for]; [eauto|].
  destruct (playing s); cbn [negb]; [|eauto].
  destruct (stepSnake_defined s (Hne eq_refl)) as [s1 Hs1].
  rewrite Hs1. cbn [mbind option_bind]. apply IH. intros _.
  eapply stepSnake_nonempty; eassumption.
Qed.

Lemma steps_for_frame (n : nat) (s s' : State) :
  steps_for E n s = Some s' ->
  stepProgress s' = stepProgress s /\ lastNow s' = lastNow s.
Proof.
  intros Hrun.
  apply (steps_for_inv
           (fun x => stepProgress x = stepProgress s /\ lastNow x = lastNow s))
    with (n := n) (s := s); [|assumption|auto].
  intros a b Hab [Hp Hl]. destruct (stepSnake_frame a b Hab) as (_ & -> & _ & _ & ->).
  auto.
Qed.

Lemma simulate_ok (dt : Q) (s : State) :
  snake_ok s ->
  exists s', simulate E dt s = Some s' /\ snake_ok s' /\ lastNow s' = lastNow s.
Proof.
  intros Hok. unfold simulate. destruct (playing s) eqn:Hp; [|eauto].
  set (s1 := set_stepProgress _ _).
  assert (Hok1 : snake_ok s1).
  { subst s1. destruct Hok as [Hnd Hne]. destruct (gameOver s); split; auto. }
  assert (Hl1 : lastNow s1 = lastNow s).
  { subst s1. destruct (gameOver s); reflexivity. }
  clearbody s1. destruct (Qle_bool 1 (stepProgress s1)); [|eauto].
  set (s2 := set_stepProgress _ s1).
  assert (Hok2 : snake_ok s2) by exact Hok1.
  destruct (steps_for_defined (Z.to_nat (Qfloor (stepProgress s1))) s2
              (proj2 Hok2)) as [s' Hs'].
  exists s'. split; [assumption|]. split.
  - apply (steps_for_inv snake_ok) with (n := Z.to_nat (Qfloor (stepProgress s1)))
      (s := s2); [|assumption|assumption].
    intros a b. apply stepSnake_ok.
  - destruct (steps_for_frame _ _ _ Hs') as [_ ->]. exact Hl1.
Qed.

Lemma simulate_progress (dt : Q) (s s' : State) :
  progress_ok s -> (0 <= dt)%Q -> simulate E dt s = Some s' -> progress_ok s'.
Proof.
  intros [H0 H1] Hdt. unfold simulate. destruct (playing s).
  2: { intros [= <-]. split; assumption. }
  set (s1 := if negb (gameOver s) then set_dir (nextDir s) s else s).
  assert (Hp1 : stepProgress s1 = stepProgress s).
  { subst s1. destruct (gameOver s); reflexivity. }
  clearbody s1. cbn [stepProgress set_stepProgress]. rewrite Hp1.
  set (x := (stepProgress s + dt * STEPS_PER_SECOND)%Q).
  assert (Hx : (0 <= x)%Q) by (subst x; unfold STEPS_PER_SECOND; lra).
  destruct (Qle_bool 1 x) eqn:Hle.
  - intros Hrun. destruct (steps_for_frame _ _ _ Hrun) as [Hp _].
    unfold progress_ok. rewrite Hp. cbn [stepProgress set_stepProgress].
    pose proof (Qfloor_le x) as Hlo. pose proof (Qlt_floor x) as Hhi.
    rewrite inject_Z_plus in Hhi. change (inject_Z 1) with 1%Q in Hhi.
    split; lra.
  - intros [= <-]. unfold progress_ok. cbn [stepProgress set_stepProgress].
    split; [assumption|]. apply Qnot_le_lt. intros Hc.
    apply Qle_bool_iff in Hc. congruence.
Qed.

Lemma elapsed_nonneg (now : Q) (s : State) :
  (lastNow s <= now)%Q -> (0 <= elapsed now s)%Q.
Proof.
  intros Hle. unfold elapsed. apply Q.min_glb; [lra|].
  unfold Qdiv. apply Qmult_le_0_compat; [lra | now compute].
Qed.

Lemma elapsed_clamped (now : Q) (s : State) : (elapsed now s <= 0.1)%Q.
Proof. unfold elapsed. apply Q.le_min_l. Qed.

(** *** A frame *)

Lemma loop_ok (now : Q) (s : State) :
  snake_ok s ->
  exists s', loop E now s = Some s' /\ snake_ok s' /\ lastNow s' = now /\
    (progress_ok s -> (lastNow s <= now)%Q -> progress_ok s').
Proof.
  intros Hok. unfold loop. fold (elapsed now s).
  destruct (simulate_ok (elapsed now s) (set_lastNow now s) Hok)
    as (s1 & Hs1 & Hok1 & Hl1).
  rewrite Hs1. cbn [mbind option_bind]. rewrite updateParticles_spec.
  cbn [mbind option_bind]. eexists. split; [reflexivity|].
  split; [exact Hok1|]. split; [exact Hl1|].
  intros Hp Hle.
  apply (simulate_progress (elapsed now s) (set_lastNow now s) s1 Hp
           (elapsed_nonneg now s Hle) Hs1).
Qed.

(** *** [startNewGame], the keys and [stop] *)

Lemma startNewGame_fields (s : State) :
  let s' := startNewGame E s in
  running s' = running s /\ playing s' = true /\ gameOver s' = false /\
  score s' = 0 /\ (stepProgress s' = 0)%Q /\
  snake s' = [Cell.mk 17 14; Cell.mk 18 14; Cell.mk 19 14; Cell.mk 20 14] /\
  prevSnake s' = snake s' /\ dir s' = DIRS.right /\ nextDir s' = DIRS.right /\
  grow s' = 0 /\ particles s' = particles s /\ lastNow s' = lastNow s.
Proof.
  unfold startNewGame. cbv zeta.
  match goal with
  | |- context [placeFood E ?x] => destruct (placeFood_frame x) as (c & d & ->)
  end.
  repeat split.
Qed.

Lemma startNewGame_ok (s : State) : snake_ok (startNewGame E s).
Proof.
  destruct (startNewGame_fields s) as (_ & _ & _ & _ & _ & Hs & _).
  unfold snake_ok. rewrite Hs. split; [|discriminate].
  repeat (apply NoDup_cons_2; [rewrite ?elem_of_cons, ?elem_of_nil; intuition discriminate|]).
  apply NoDup_nil_2.
Qed.

Lemma queueDirection_cases (d : cell) (s : State) :
  queueDirection d s = s \/ queueDirection d s = set_nextDir d s.
Proof. unfold queueDirection. destruct (_ || _); auto. Qed.

Lemma keydown_cases (c : keycode) (s : State) :
  (c = Space /\ playing s = false /\ keydown E c s = startNewGame E s)
  \/ keydown E c s = s
  \/ exists d, keydown E c s = set_nextDir d s.
Proof.
  destruct c; cbn [keydown keyDirMap];
    try (destruct (queueDirection_cases DIRS.left s) as [-> | ->]; eauto; fail);
    try (destruct (queueDirection_cases DIRS.right s) as [-> | ->]; eauto; fail);
    try (destruct (queueDirection_cases DIRS.up s) as [-> | ->]; eauto; fail);
    try (destruct (queueDirection_cases DIRS.down s) as [-> | ->]; eauto; fail);
    [|auto].
  destruct (playing s); cbn [negb]; auto.
Qed.

(** *** Every event is handled, and keeps the two invariants *)

Lemma handle_ok (e : event) (s : State) :
  snake_ok s ->
  exists s', handle E e s = Some s' /\ snake_ok s' /\
    lastNow s' = match e with Frame now => now | _ => lastNow s end /\
    (progress_ok s ->
     match e with Frame now => (lastNow s <= now)%Q | _ => True end ->
     progress_ok s').
Proof.
  intros Hok. destruct e as [c|now| |]; cbn [handle].
  - exists (keydown E c s). split; [reflexivity|].
    destruct (keydown_cases c s) as [(_ & _ & ->) | [-> | (d & ->)]].
    + destruct (startNewGame_fields s)
        as (_ & _ & _ & _ & Hp & _ & _ & _ & _ & _ & _ & Hl).
      split; [apply startNewGame_ok|]. split; [exact Hl|].
      intros _ _. unfold progress_ok. rewrite Hp. split; lra.
    + auto.
    + auto.
  - apply loop_ok. assumption.
  - exists (startNewGame E s). split; [reflexivity|].
    destruct (startNewGame_fields s)
      as (_ & _ & _ & _ & Hp & _ & _ & _ & _ & _ & _ & Hl).
    split; [apply startNewGame_ok|]. split; [exact Hl|].
    intros _ _. unfold progress_ok. rewrite Hp. split; lra.
  - exists (stop s). split; [reflexivity|]. split; [|auto].
    destruct Hok as [Hnd _]. split; [exact Hnd | discriminate].
Qed.

Lemma run_ok (evs : list event) (s : State) :
  snake_ok s ->
  exists s', run E evs s = Some s' /\ snake_ok s' /\
    (progress_ok s -> clock_ok (lastNow s) evs -> progress_ok s').
Proof.
  revert s. induction evs as [|e evs IH]; intros s Hok; cbn [run].
  - eauto.
  - destruct (handle_ok e s Hok) as (s1 & Hs1 & Hok1 & Hl1 & Hp1).
    rewrite Hs1. cbn [mbind option_bind].
    destruct (IH s1 Hok1) as (s' & Hs' & Hok' & Hp').
    exists s'. split; [assumption|]. split; [assumption|].
    intros Hp Hclock. apply Hp'.
    + apply Hp1; [assumption|]. destruct e; cbn [clock_ok] in Hclock; tauto.
    + rewrite Hl1. destruct e; cbn [clock_ok] in Hclock; tauto.
Qed.

(** *** A finished game stays as it is until it is started again *)

Lemma sameGame_refl (s : State) : sameGame s s.
Proof. repeat split. Qed.

Lemma sameGame_trans (a b c : State) :
  sameGame a b -> sameGame b c -> sameGame a c.
Proof. unfold sameGame. intuition congruence. Qed.

Lemma finished_handle (e : event) (s : State) :
  playing s = false -> gameOver s = true -> restarts e = false ->
  exists s', handle E e s = Some s' /\
    playing s' = false /\ gameOver s' = true /\ sameGame s s'.
Proof.
  intros Hp Hg Hr. destruct e as [c|now| |]; cbn [handle];
    try discriminate Hr.
  - exists (keydown E c s). split; [reflexivity|].
    destruct (keydown_cases c s) as [(-> & _) | [-> | (d & ->)]].
    + discriminate Hr.
    + split; [assumption|]. split; [assumption|]. apply sameGame_refl.
    + split; [assumption|]. split; [assumption|]. repeat split.
  - rewrite (loop_not_playing now s Hp). eexists. split; [reflexivity|].
    split; [assumption|]. split; [assumption|]. repeat split.
  - exists (stop s). split; [reflexivity|].
    split; [reflexivity|]. split; [reflexivity|]. repeat split.
Qed.

Lemma finished_run (evs : list event) (s : State) :
  playing s = false -> gameOver s = true ->
  forallb (fun e => negb (restarts e)) evs = true ->
  exists s', run E evs s = Some s' /\
    playing s' = false /\ gameOver s' = true /\ sameGame s s'.
Proof.
  revert s. induction evs as [|e evs IH]; intros s Hp Hg Hno; cbn [run].
  - exists s. split; [reflexivity|]. split; [assumption|].
    split; [assumption|]. apply sameGame_refl.
  - cbn [forallb] in Hno. apply andb_true_iff in Hno. destruct Hno as [He Hno].
    apply negb_true_iff in He.
    destruct (finished_handle e s Hp Hg He) as (s1 & Hs1 & Hp1 & Hg1 & Hsame1).
    rewrite Hs1. cbn [mbind option_bind].
    destruct (IH s1 Hp1 Hg1 Hno) as (s' & Hs' & Hp' & Hg' & Hsame').
    exists s'. split; [assumption|]. split; [assumption|].
    split; [assumption|]. eapply sameGame_trans; eassumption.
Qed.

Lemma committed_ok (s : State) : committed E s -> snake_ok s.
Proof.
  induction 1 as [t0|s|s s' _ IH Hs|s d _ IH|s s' e _ IH He].
  - split; [apply NoDup_nil_2 | discriminate].
  - apply startNewGame_ok.
  - eapply stepSnake_ok; eassumption.
  - exact IH.
  - destruct (handle_ok e s IH) as (s1 & Hs1 & Hok1 & _).
    rewrite Hs1 in He. now injection He as <-.
Qed.

(** *** One pass of the particle loop on one particle *)

Lemma integrate1_None (dt : Q) (p : particle) :
  integrate1 dt p = None <-> (Particle.life p <= dt)%Q.
Proof.
  unfold integrate1. cbn [Particle.life age].
  destruct (Qle_bool (Particle.life p - dt) 0) eqn:Hle.
  - apply Qle_bool_iff in Hle. split; [intros _; lra | reflexivity].
  - split; [discriminate|]. intros Hc.
    assert (Hle' : Qle_bool (Particle.life p - dt) 0 = true)
      by (apply Qle_bool_iff; lra).
    congruence.
Qed.

Lemma integrate1_Some (dt : Q) (p p' : particle) :
  integrate1 dt p = Some p' ->
  (dt < Particle.life p)%Q /\ p' = physics dt (age dt p).
Proof.
  intros Hi. split.
  - apply Qnot_le_lt. intros Hc. apply integrate1_None in Hc. congruence.
  - unfold integrate1 in Hi. destruct (Qle_bool _ 0); congruence.
Qed.

(** *** Length and growth counter along steps that move *)

Lemma moved_length (s s' : State) (h : cell) :
  last (snake s) = Some h ->
  inGrid (newHeadOf h (dir s)) ->
  newHeadOf h (dir s) ∉ snake s ->
  stepSnake E s = Some s' ->
  length (snake s') = (length (snake s) + (if grow s >? 0 then 1 else 0))%nat /\
  grow s' = (if grow s >? 0 then grow s - 1 else grow s)
            + (if bool_decide (food s = Some (newHeadOf h (dir s))) then 2 else 0).
Proof.
  intros Hh Hin Hfree Hs.
  rewrite (stepSnake_moves s h Hh Hin Hfree) in Hs.
  apply (inj Some) in Hs. subst s'. cbv zeta.
  destruct (advanced_fields (newHeadOf h (dir s)) s)
    as (_ & _ & _ & _ & _ & _ & _ & _ & _ & _ & _ & _ & Hsn & Hg).
  assert (Hlen : length (snake (advanced (newHeadOf h (dir s)) s)) =
                 (length (snake s) + (if grow s >? 0 then 1 else 0))%nat).
  { rewrite Hsn. destruct (grow s >? 0).
    - rewrite length_app. reflexivity.
    - rewrite length_tl, length_app. cbn [length]. lia. }
  destruct (bool_decide _).
  - destruct (eaten_fields (newHeadOf h (dir s)) (score s + 10)
                (advanced (newHeadOf h (dir s)) s))
      as (_ & _ & _ & _ & _ & He6 & _ & _ & _ & He10 & _).
    rewrite He6, He10, Hg. split; [exact Hlen | reflexivity].
  - rewrite Hg. split; [exact Hlen | destruct (grow s >? 0); lia].
Qed.

Lemma quietSteps_length (n : nat) (s s' : State) :
  quietSteps E n s s' -> 0 <= grow s ->
  length (snake s') = (length (snake s) + Nat.min n (Z.to_nat (grow s)))%nat /\
  grow s' = grow s - Z.of_nat (Nat.min n (Z.to_nat (grow s))).
Proof.
  induction 1 as [s|n s s1 s' d Hq _ IH]; intros Hg.
  - cbn [Nat.min]. split; lia.
  - destruct Hq as (h & Hh & Hin & Hfree & Hfood & Hs).
    destruct (moved_length _ _ _ Hh Hin Hfree Hs) as [Hlen Hgrow].
    rewrite bool_decide_eq_false_2 in Hgrow by exact Hfood.
    cbn [snake grow set_dir] in Hlen, Hgrow.
    destruct (Z.gtb_spec (grow s) 0) as [Hpos|Hzero];
      (destruct IH as [IHl IHg]; [lia|]); rewrite IHl, IHg, Hlen, Hgrow;
      split; lia.
Qed.

(** *** A frame in which no step is due still commits the direction *)

Lemma loop_without_step (now : Q) (s : State) :
  playing s = true -> gameOver s = false ->
  (stepProgress s + elapsed now s * STEPS_PER_SECOND < 1)%Q ->
  exists s', loop E now s = Some s' /\
    dir s' = nextDir s /\ snake s' = snake s /\ prevSnake s' = prevSnake s.
Proof.
  intros Hp Hg Hlt. unfold loop, simulate. fold (elapsed now s).
  cbn [playing gameOver set_lastNow]. rewrite Hp, Hg. cbn [negb].
  cbn [stepProgress set_stepProgress set_dir set_lastNow].
  destruct (Qle_bool 1 (stepProgress s + elapsed now s * STEPS_PER_SECOND))
    eqn:Hle.
  - apply Qle_bool_iff in Hle. lra.
  - cbn [mbind option_bind]. rewrite updateParticles_spec.
    cbn [mbind option_bind]. eexists. split; [reflexivity|]. repeat split.
Qed.

(** *** The states used below can be reached *)

Lemma committed_stepped (s : State) :
  committed E s -> committed E (stepped E s).
Proof.
  intros Hc. unfold stepped. destruct (stepSnake E s) as [s'|] eqn:Hs.
  - exact (committed_step E s s' Hc Hs).
  - exact Hc.
Qed.

Lemma committed_iter (n : nat) (s : State) :
  committed E s -> committed E (Nat.iter n (stepped E) s).
Proof.
  intros Hc. induction n as [|n IH]; [exact Hc|].
  cbn [Nat.iter nat_rect]. apply committed_stepped, IH.
Qed.

Lemma init_ok (t0 : Q) : snake_ok (init t0) /\ progress_ok (init t0).
Proof.
  split; [split; [apply NoDup_nil_2 | discriminate] | split; cbn; lra].
Qed.

End Facts.

(** * The claims of the specification *)

Section Claims.

Variable E : Env.

(** C6. For every direction [d], [queueDirection d] leaves the pending
    direction (and the whole state) unchanged when [d] is the exact
    reverse of the current direction or the exact reverse of the pending
    direction; otherwise it overwrites the pending direction with [d] and
    changes nothing else. *)
Theorem queueDirection_spec (d : cell) (s : State) :
  queueDirection d s =
  if bool_decide (d = opposite (dir s) \/ d = opposite (nextDir s))
  then s else set_nextDir d s.
Proof.
  assert (Hrev : forall c : cell,
    (Cell.x d + Cell.x c =? 0) && (Cell.y d + Cell.y c =? 0)
    = bool_decide (d = opposite c)).
  { intros c. destruct d as [dx dy], c as [x y]. unfold opposite. cbn.
    destruct (bool_decide _) eqn:Hb.
    - apply bool_decide_eq_true in Hb. apply cell_mk_inj in Hb.
      apply andb_true_iff. rewrite !Z.eqb_eq. lia.
    - apply bool_decide_eq_false in Hb. rewrite cell_mk_inj in Hb.
      apply andb_false_iff. rewrite !Z.eqb_neq. lia. }
  unfold queueDirection. rewrite !Hrev.
  destruct (bool_decide (d = opposite (dir s))) eqn:H1,
           (bool_decide (d = opposite (nextDir s))) eqn:H2; cbn [orb];
    [rewrite bool_decide_eq_true_2; [reflexivity|]..
    |rewrite bool_decide_eq_false_2; [reflexivity|]].
  - left. now apply bool_decide_eq_true in H1.
  - left. now apply bool_decide_eq_true in H1.
  - right. now apply bool_decide_eq_true in H2.
  - apply bool_decide_eq_false in H1, H2. tauto.
Qed.

(** C10. [SnakeGame.stop] sets [playing] to false and [gameOver] to true
    and changes nothing else: the score, the snake, the previous
    snapshot, the food, both directions, the growth counter, the
    interpolation progress and the particles are the same; no death
    burst is emitted and no random number is drawn. *)
Theorem stop_spec (s : State) :
  playing (stop s) = false /\ gameOver (stop s) = true /\
  running (stop s) = running s /\ score (stop s) = score s /\
  stepProgress (stop s) = stepProgress s /\ snake (stop s) = snake s /\
  prevSnake (stop s) = prevSnake s /\ dir (stop s) = dir s /\
  nextDir (stop s) = nextDir s /\ grow (stop s) = grow s /\
  food (stop s) = food s /\ particles (stop s) = particles s /\
  lastNow (stop s) = lastNow s /\ draws (stop s) = draws s.
Proof. repeat split. Qed.

(** C8. Food placement always returns. Either one of the at most 1000
    tries samples a cell that is not on the snake: the first such try
    [k] decides, every earlier try sampled a snake cell, the food is the
    cell of try [k], a cell of the grid; or all 1000 tries sampled snake
    cells and the food is the fallback cell (1,1). Nothing but the food
    (and the count of random numbers drawn) changes. *)
Theorem placeFood_spec (s : State) :
  random_in_range E ->
  (exists k : nat, (k < 1000)%nat /\
     (forall j : nat, (j < k)%nat -> sampleCell E (draws s) j ∈ snake s) /\
     (sampleCell E (draws s) k ∉ snake s) /\
     inGrid (sampleCell E (draws s) k) /\
     placeFood E s =
       set_food (Some (sampleCell E (draws s) k))
         (set_draws (draws s + 2 * (k + 1)) s))
  \/ ((forall j : nat, (j < 1000)%nat -> sampleCell E (draws s) j ∈ snake s) /\
      placeFood E s =
        set_food (Some (Cell.mk 1 1)) (set_draws (draws s + 2 * 1000) s)).
Proof.
  intros Hr.
  destruct (placeFood_cases E s)
    as [(k & Hk & Hbefore & Hfree & Heq) | (Hall & Heq)].
  - left. exists k. split; [exact Hk|]. split; [exact Hbefore|].
    split; [exact Hfree|]. split; [apply sampleCell_inGrid, Hr | exact Heq].
  - right. split; assumption.
Qed.

(** C1. In a game that is being played, when the new head (the head
    plus the current direction) is outside the grid or on a cell of the
    body, the step ends the game: [playing] becomes false and [gameOver]
    true; a burst of exactly 36 particles, all at the centre of the cell
    of the head before the collision, is appended to the particles; the
    snake, the score, the growth counter and the food are as before the
    step. From then on the step loop of the driver issues no step, and
    until a new game is started no event changes the snake, the previous
    snapshot, the score, the growth counter, the food, the current
    direction or the progress, nor draws a random number. *)
Theorem stepSnake_collision (s : State) (h : cell) :
  playing s = true ->
  last (snake s) = Some h ->
  ~ inGrid (newHeadOf h (dir s)) \/ newHeadOf h (dir s) ∈ snake s ->
  exists s', stepSnake E s = Some s' /\
    playing s' = false /\ gameOver s' = true /\
    snake s' = snake s /\ score s' = score s /\ grow s' = grow s /\
    food s' = food s /\
    (exists b, particles s' = particles s ++ b /\ length b = 36%nat /\
               Forall (atCell h) b) /\
    (forall n, steps_for E n s' = Some s') /\
    (forall evs, forallb (fun e => negb (restarts e)) evs = true ->
       exists s'', run E evs s' = Some s'' /\
         playing s'' = false /\ gameOver s'' = true /\ sameGame s' s'').
Proof.
  intros _ Hh Hc. eexists. split; [apply (stepSnake_collides E s h Hh Hc)|].
  split; [reflexivity|]. split; [reflexivity|]. split; [reflexivity|].
  split; [reflexivity|]. split; [reflexivity|]. split; [reflexivity|].
  split; [|split].
  - eexists. split; [reflexivity|]. split; [apply burst_length|].
    apply burst_atCell.
  - intros n. now apply steps_for_not_playing.
  - intros evs Hno. now apply finished_run.
Qed.

(** C3. In every state that can be reached (from the start screen or
    from any new game, by simulation steps, changes of direction and
    events in any order), the cells of the snake are pairwise distinct. *)
Theorem no_self_overlap (s : State) : committed E s -> NoDup (snake s).
Proof. intros Hc. apply (committed_ok E s Hc). Qed.

(** C7. Whatever keys are pressed and whatever frames occur, as long as
    the time stamps of the frames do not run backwards: every event is
    handled, and after it the interpolation progress that rendering
    reads is at least 0 and less than 1 (in exact arithmetic). This
    includes the frames in which no step is due. *)
Theorem interpolation_bound (t0 : Q) (evs : list event) :
  clock_ok t0 evs ->
  exists s, run E evs (init t0) = Some s /\
    (0 <= stepProgress s)%Q /\ (stepProgress s < 1)%Q.
Proof.
  intros Hclock. destruct (init_ok t0) as [Hok Hp].
  destruct (run_ok E evs (init t0) Hok) as (s & Hs & _ & Hps).
  exists s. split; [assumption|]. apply Hps; assumption.
Qed.

(** C2 (amended). When the new head of a step is a free cell of the grid
    and is the food cell, the step returns and afterwards: the score is
    10 more; the growth counter is 2 more if it was 0 and 1 more if it
    was positive (the step first takes one off a positive counter, then
    adds 2); a burst of exactly 18 particles, all at the centre of the
    eaten food's cell, is appended to the particles; and the food is
    placed again, on a cell of the grid that is not on the snake, or, if
    all 1000 samples fell on the snake, on the fallback cell (1,1). *)
Theorem stepSnake_eats (s : State) (h : cell) :
  random_in_range E ->
  last (snake s) = Some h ->
  inGrid (newHeadOf h (dir s)) ->
  newHeadOf h (dir s) ∉ snake s ->
  food s = Some (newHeadOf h (dir s)) ->
  exists s', stepSnake E s = Some s' /\
    score s' = score s + 10 /\
    grow s' = (if grow s >? 0 then grow s + 1 else grow s + 2) /\
    (exists b, particles s' = particles s ++ b /\ length b = 18%nat /\
               Forall (atCell (newHeadOf h (dir s))) b) /\
    (exists c, food s' = Some c /\
       (((c ∉ snake s') /\ inGrid c) \/
        (c = Cell.mk 1 1 /\
         forall j : nat, (j < 1000)%nat ->
           sampleCell E (draws s + 4 * 18) j ∈ snake s'))).
Proof.
  intros Hr Hh Hin Hfree Hfood.
  pose proof (stepSnake_moves E s h Hh Hin Hfree) as Hstep.
  cbv zeta in Hstep. rewrite bool_decide_eq_true_2 in Hstep by exact Hfood.
  destruct (advanced_fields (newHeadOf h (dir s)) s)
    as (_ & _ & _ & _ & _ & _ & _ & _ & _ & Hap & _ & Had & _ & Hag).
  destruct (eaten_fields E (newHeadOf h (dir s)) (score s + 10)
              (advanced (newHeadOf h (dir s)) s))
    as (_ & _ & _ & Hsc & _ & Hsn & _ & _ & _ & Hg & _ & Hpa).
  pose proof (placeFood_cases E
    (spawnEatParticles E (Cell.x (newHeadOf h (dir s)))
       (Cell.y (newHeadOf h (dir s))) 18
       (set_grow (grow (advanced (newHeadOf h (dir s)) s) + 2)
          (set_score (score s + 10) (advanced (newHeadOf h (dir s)) s)))))
    as Hplace.
  assert (HX : snake (spawnEatParticles E (Cell.x (newHeadOf h (dir s)))
       (Cell.y (newHeadOf h (dir s))) 18
       (set_grow (grow (advanced (newHeadOf h (dir s)) s) + 2)
          (set_score (score s + 10) (advanced (newHeadOf h (dir s)) s))))
       = snake (advanced (newHeadOf h (dir s)) s) /\
     draws (spawnEatParticles E (Cell.x (newHeadOf h (dir s)))
       (Cell.y (newHeadOf h (dir s))) 18
       (set_grow (grow (advanced (newHeadOf h (dir s)) s) + 2)
          (set_score (score s + 10) (advanced (newHeadOf h (dir s)) s))))
       = (draws s + 4 * 18)%nat).
  { unfold spawnEatParticles. rewrite spawn_for_spec.
    cbn [snake draws set_draws set_particles set_grow set_score].
    rewrite Had. split; reflexivity. }
  destruct HX as [HXs HXd]. rewrite HXs, HXd in Hplace.
  revert Hstep Hsc Hsn Hg Hpa Hplace.
  generalize (placeFood E
    (spawnEatParticles E (Cell.x (newHeadOf h (dir s)))
       (Cell.y (newHeadOf h (dir s))) 18
       (set_grow (grow (advanced (newHeadOf h (dir s)) s) + 2)
          (set_score (score s + 10) (advanced (newHeadOf h (dir s)) s))))).
  intros s' Hstep Hsc Hsn Hg Hpa Hplace.
  exists s'. split; [exact Hstep|]. split; [exact Hsc|]. split.
  { rewrite Hg, Hag. destruct (grow s >? 0); lia. }
  split.
  { eexists. split; [rewrite Hpa, Hap; reflexivity|].
    split; [apply burst_length | apply burst_atCell]. }
  rewrite Hsn.
  destruct Hplace as [(k & _ & _ & Hk & ->) | (Hall & ->)];
    cbn [food set_food]; eexists; (split; [reflexivity|]).
  - left. split; [exact Hk | apply sampleCell_inGrid, Hr].
  - right. split; [reflexivity | exact Hall].
Qed.

(** C4 (amended). Every step that moves (no collision) makes the snake
    one longer when the growth counter was positive and leaves its length
    unchanged when the counter was 0. A meal leaves the counter at 2
    exactly when it was 0 or 1 before; after such a meal, as long as the
    following steps move and no further meal is taken, the length grows
    by exactly 1 on each of the next 2 steps and stays constant after
    that. *)
Theorem growth_by_steps :
  (forall s s' : State,
     eatStep E s s' \/ quietStep E s s' ->
     length (snake s') =
       (length (snake s) + (if grow s >? 0 then 1 else 0))%nat) /\
  (forall s0 s1 : State,
     eatStep E s0 s1 -> (grow s1 = 2 <-> grow s0 = 0 \/ grow s0 = 1)) /\
  (forall (s0 s1 s' : State) (n : nat),
     eatStep E s0 s1 -> grow s1 = 2 -> quietSteps E n s1 s' ->
     length (snake s') = (length (snake s1) + Nat.min n 2)%nat).
Proof.
  split; [|split].
  - intros s s' [(h & Hh & Hin & Hfree & _ & Hs) | (h & Hh & Hin & Hfree & _ & Hs)];
      apply (moved_length E s s' h Hh Hin Hfree Hs).
  - intros s0 s1 (h & Hh & Hin & Hfree & Hfood & Hs).
    destruct (moved_length E s0 s1 h Hh Hin Hfree Hs) as [_ Hgrow].
    rewrite bool_decide_eq_true_2 in Hgrow by exact Hfood.
    rewrite Hgrow. destruct (Z.gtb_spec (grow s0) 0); lia.
  - intros s0 s1 s' n _ Hg1 Hquiet.
    destruct (quietSteps_length E n s1 s' Hquiet) as [Hl _]; [lia|].
    rewrite Hl, Hg1. reflexivity.
Qed.

End Claims.

(** ** The particle loop on binary64 numbers *)

Lemma particles_for64_app (dt : float) (l1 l2 : list B64.particle) :
  B64.particles_for (length l1) dt (l1 ++ l2)
  = Some (omap (B64.integrate1 dt) l1 ++ l2).
Proof.
  revert l2. induction l1 as [|p l IH] using rev_ind; intros l2.
  - reflexivity.
  - rewrite length_app, Nat.add_1_r. cbn [length B64.particles_for].
    rewrite <- app_assoc. cbn [app].
    rewrite list_lookup_middle by reflexivity. cbn [mbind option_bind].
    rewrite omap_app. cbn [omap list_omap]. unfold B64.integrate1 at 2.
    destruct (B64.life (B64.age dt p) <=? 0)%float.
    + rewrite delete_middle, IH, app_nil_r. reflexivity.
    + assert (Hi : <[length l := B64.physics dt (B64.age dt p)]> (l ++ p :: l2)
                   = l ++ B64.physics dt (B64.age dt p) :: l2).
      { rewrite <- (Nat.add_0_r (length l)) at 1. now rewrite insert_app_r. }
      rewrite Hi, IH, <- app_assoc. reflexivity.
Qed.

Lemma updateParticles64_spec (dt : float) (ps : list B64.particle) :
  B64.updateParticles dt ps = Some (omap (B64.integrate1 dt) ps).
Proof.
  unfold B64.updateParticles.
  rewrite <- (app_nil_r ps) at 2. rewrite particles_for64_app.
  now rewrite app_nil_r.
Qed.

Lemma omap_bind_track64 (dt : float) (dts : list float)
    (ps : list B64.particle) :
  omap (B64.track dts) (omap (B64.integrate1 dt) ps)
  = omap (B64.track (dt :: dts)) ps.
Proof.
  induction ps as [|p ps IH]; [reflexivity|].
  cbn [omap list_omap B64.track]. destruct (B64.integrate1 dt p) as [p'|];
    cbn [mbind option_bind omap list_omap].
  - destruct (B64.track dts p'); [f_equal|]; exact IH.
  - exact IH.
Qed.

Lemma updateParticles64_seq_track (dts : list float) (ps : list B64.particle) :
  B64.updateParticles_seq dts ps = Some (omap (B64.track dts) ps).
Proof.
  revert ps. induction dts as [|dt dts IH]; intros ps.
  - cbn [B64.updateParticles_seq B64.track]. f_equal.
    induction ps as [|p ps IHps]; [reflexivity|]. cbn. now rewrite <- IHps.
  - cbn [B64.updateParticles_seq]. rewrite updateParticles64_spec.
    cbn [mbind option_bind]. rewrite IH. now rewrite omap_bind_track64.
Qed.

Lemma integrate64_cases (dt : float) (p : B64.particle) :
  ((B64.life p - dt <=? 0)%float = true /\ B64.integrate1 dt p = None) \/
  ((B64.life p - dt <=? 0)%float = false /\
   B64.integrate1 dt p = Some (B64.physics dt (B64.age dt p))).
Proof.
  unfold B64.integrate1. cbn [B64.life B64.age].
  destruct (B64.life p - dt <=? 0)%float; auto.
Qed.

Lemma life_after_cons (dt : float) (dts : list float) (l : float) :
  B64.life_after (dt :: dts) l = B64.life_after dts (l - dt)%float.
Proof. reflexivity. Qed.

Lemma track64_None (dts : list float) (p : B64.particle) :
  B64.track dts p = None <->
  exists j : nat, (1 <= j <= length dts)%nat /\
    (B64.life_after (take j dts) (B64.life p) <=? 0)%float = true.
Proof.
  revert p. induction dts as [|dt dts IH]; intros p.
  - cbn [B64.track length]. split; [discriminate|]. intros (j & Hj & _). lia.
  - cbn [B64.track].
    destruct (integrate64_cases dt p) as [[Hle ->] | [Hle ->]];
      cbn [mbind option_bind].
    + split; [|reflexivity]. intros _. exists 1%nat. cbn [length].
      split; [lia|]. exact Hle.
    + rewrite IH. cbn [B64.life B64.physics B64.age]. split.
      * intros (j & Hj & Hj0). exists (S j). cbn [length]. split; [lia|].
        rewrite firstn_cons, life_after_cons. exact Hj0.
      * intros (j & Hj & Hj0). cbn [length] in Hj.
        destruct j as [|j]; [lia|].
        rewrite firstn_cons, life_after_cons in Hj0.
        destruct j as [|j].
        -- change (take 0 dts) with (@nil float) in Hj0.
           unfold B64.life_after in Hj0. cbn [fold_left] in Hj0.
           congruence.
        -- exists (S j). split; [lia | exact Hj0].
Qed.

Lemma track64_Some_life (dts : list float) (p p' : B64.particle) :
  B64.track dts p = Some p' ->
  B64.life p' = B64.life_after dts (B64.life p).
Proof.
  revert p. induction dts as [|dt dts IH]; intros p Ht.
  - cbn [B64.track] in Ht. now injection Ht as <-.
  - cbn [B64.track] in Ht.
    destruct (integrate64_cases dt p) as [[_ Hi] | [_ Hi]];
      rewrite Hi in Ht; [discriminate|].
    cbn [mbind option_bind] in Ht. apply IH in Ht.
    rewrite Ht, life_after_cons. reflexivity.
Qed.

(** C9 (amended). On binary64 numbers, a pass of the particle loop with
    elapsed time [dt] handles every particle of the array once. It
    replaces the lifetime [L] by the rounded difference [L - dt]; over
    successive passes a particle is gone exactly when, after some pass,
    the lifetime so decremented is 0 or less, so it is removed in the
    first such pass; while it is there, its lifetime is the result of
    these subtractions. A particle that stays gets, in this order,
    gravity [200 * dt * 0.6] added to its vertical velocity, its position
    moved by velocity times [dt] (with the new vertical velocity), and
    both velocity components multiplied by 0.98. *)
Theorem particle_integration_binary64 :
  (forall dts ps,
     B64.updateParticles_seq dts ps = Some (omap (B64.track dts) ps)) /\
  (forall dts p,
     B64.track dts p = None <->
     exists j : nat, (1 <= j <= length dts)%nat /\
       (B64.life_after (take j dts) (B64.life p) <=? 0)%float = true) /\
  (forall dts p p',
     B64.track dts p = Some p' ->
     B64.life p' = B64.life_after dts (B64.life p)) /\
  (forall dt p p',
     B64.track [dt] p = Some p' ->
     let vy1 := (B64.vy p + 200 * dt * 0.6)%float in
     B64.life p' = (B64.life p - dt)%float /\
     B64.x p' = (B64.x p + B64.vx p * dt)%float /\
     B64.y p' = (B64.y p + vy1 * dt)%float /\
     B64.vx p' = (B64.vx p * 0.98)%float /\
     B64.vy p' = (vy1 * 0.98)%float /\
     B64.size p' = B64.size p).
Proof.
  split; [exact updateParticles64_seq_track|].
  split; [exact track64_None|].
  split; [exact track64_Some_life|].
  intros dt p p' Ht. cbn [B64.track] in Ht.
  destruct (integrate64_cases dt p) as [[_ Hi] | [_ Hi]];
    rewrite Hi in Ht; [discriminate|].
  cbn [mbind option_bind] in Ht. injection Ht as <-.
  repeat split.
Qed.

Lemma particle_integration_binary64_witness :
  (forall p', B64.track [0.1%float] ember = Some p' ->
     B64.life p' = (0.6 - 0.1)%float /\
     B64.vy p' = ((0 + 200 * 0.1 * 0.6) * 0.98)%float) /\
  B64.track seven_passes ember = None.
Proof.
  split.
  - intros p' Hp'.
    destruct (proj2 (proj2 (proj2 particle_integration_binary64))
                0.1%float ember p' Hp') as (Hl & _ & _ & _ & Hvy & _).
    split; [exact Hl | exact Hvy].
  - apply (proj1 (proj2 particle_integration_binary64)). exists 7%nat.
    split; [cbn; lia | vm_compute; reflexivity].
Defined.

(** C9, as stated, fails on [ember], a particle with a lifetime of 0.6 s,
    and passes of 0.1 s: after the sixth pass the cumulative elapsed
    time is at least the lifetime, as a sum of binary64 numbers and as
    an exact sum, but the particle is still in the array, with a
    lifetime of 2^-55 s left by the rounded subtractions; the seventh
    pass removes it. *)
Lemma particle_integration_counterexample :
  (B64.life ember <=? fold_left PrimFloat.add six_passes 0)%float = true /\
  (exact (B64.life ember) <= Qsum (map exact six_passes))%Q /\
  (exists p', B64.updateParticles_seq six_passes [ember] = Some [p'] /\
              B64.life p' = 0x1p-55%float /\
              (B64.life p' <=? 0)%float = false) /\
  B64.updateParticles_seq seven_passes [ember] = Some [].
Proof.
  split; [vm_compute; reflexivity|].
  split; [vm_compute; discriminate|].
  split.
  - eexists. split; [vm_compute; reflexivity|].
    split; vm_compute; reflexivity.
  - vm_compute. reflexivity.
Qed.

(** *** Instances of the claims on concrete games *)

Lemma E_demo_range : random_in_range E_demo.
Proof.
  intros k. cbn [Math_random E_demo]. unfold random_demo.
  destruct (k =? 0)%nat; [|destruct (k =? 74)%nat]; split; now compute.
Defined.

Lemma stepSnake_collision_witness :
  playing at_wall = true /\
  last (snake at_wall) = Some (Cell.mk 39 14) /\
  ~ inGrid (newHeadOf (Cell.mk 39 14) (dir at_wall)) /\
  exists s', stepSnake E_demo at_wall = Some s' /\
    playing s' = false /\ gameOver s' = true /\ snake s' = snake at_wall.
Proof.
  assert (Hout : ~ inGrid (newHeadOf (Cell.mk 39 14) (dir at_wall))).
  { unfold inGrid, newHeadOf, GRID_W. cbn. lia. }
  split; [reflexivity|]. split; [reflexivity|]. split; [exact Hout|].
  destruct (stepSnake_collision E_demo at_wall (Cell.mk 39 14)
              eq_refl eq_refl (or_introl Hout))
    as (s' & Hs & Hp & Hg & Hsn & _).
  exists s'. auto.
Defined.

Lemma no_self_overlap_witness :
  committed E_demo started2 /\ NoDup (snake started2).
Proof.
  assert (Hc : committed E_demo started2)
    by (apply committed_stepped, committed_stepped, committed_start).
  split; [exact Hc|]. exact (no_self_overlap E_demo started2 Hc).
Defined.

Lemma interpolation_bound_witness :
  clock_ok 0 [Keydown Space; Frame 100; Frame 200] /\
  exists s, run E_demo [Keydown Space; Frame 100; Frame 200] (init 0) = Some s /\
    (0 <= stepProgress s)%Q /\ (stepProgress s < 1)%Q.
Proof.
  assert (Hc : clock_ok 0 [Keydown Space; Frame 100; Frame 200]).
  { cbn. repeat split; now compute. }
  split; [exact Hc|].
  apply (interpolation_bound E_demo 0 [Keydown Space; Frame 100; Frame 200] Hc).
Defined.

Lemma placeFood_spec_witness :
  random_in_range E_demo /\
  exists c, food (placeFood E_demo (init 0)) = Some c.
Proof.
  split; [exact E_demo_range|].
  destruct (placeFood_spec E_demo (init 0) E_demo_range)
    as [(k & _ & _ & _ & _ & ->) | (_ & ->)]; eexists; reflexivity.
Defined.

Lemma E_const_range : random_in_range E_const.
Proof. intros k. split; now compute. Defined.

Lemma stepSnake_eats_witness :
  random_in_range E_demo /\
  last (snake started) = Some (Cell.mk 20 14) /\
  inGrid (newHeadOf (Cell.mk 20 14) (dir started)) /\
  (newHeadOf (Cell.mk 20 14) (dir started) ∉ snake started) /\
  food started = Some (newHeadOf (Cell.mk 20 14) (dir started)) /\
  exists s', stepSnake E_demo started = Some s' /\
    score s' = score started + 10 /\ grow s' = 2.
Proof.
  assert (Hh : last (snake started) = Some (Cell.mk 20 14))
    by (vm_compute; reflexivity).
  assert (Hin : inGrid (newHeadOf (Cell.mk 20 14) (dir started)))
    by (vm_compute; intuition discriminate).
  assert (Hfree : newHeadOf (Cell.mk 20 14) (dir started) ∉ snake started)
    by (apply existsb_sameCell_false; vm_compute; reflexivity).
  assert (Hfood : food started = Some (newHeadOf (Cell.mk 20 14) (dir started)))
    by (vm_compute; reflexivity).
  split; [exact E_demo_range|]. split; [exact Hh|]. split; [exact Hin|].
  split; [exact Hfree|]. split; [exact Hfood|].
  destruct (stepSnake_eats E_demo started (Cell.mk 20 14)
              E_demo_range Hh Hin Hfree Hfood)
    as (s' & Hs & Hsc & Hg & _).
  exists s'. split; [exact Hs|]. split; [exact Hsc|].
  rewrite Hg. vm_compute. reflexivity.
Defined.

(** C2, as stated, fails in two ways, each in a game that can be played.
    In [started1] the counter is 2 and the food is in front of the head
    again: the step eats and the counter goes to 3, not to 4. In
    [near_food] the food is on (1,1) and every sample of the placement
    is (1,1), where the head now is: the new food is the fallback cell
    (1,1), under the head. *)
Lemma stepSnake_eats_counterexample :
  (last (snake started1) = Some (Cell.mk 21 14) /\
   dir started1 = DIRS.right /\ food started1 = Some (Cell.mk 22 14) /\
   (Cell.mk 22 14 ∉ snake started1) /\ grow started1 = 2 /\
   exists s', stepSnake E_demo started1 = Some s' /\
     score s' = score started1 + 10 /\
     grow s' = 3 /\ grow s' <> grow started1 + 2) /\
  (snake near_food = [Cell.mk 5 1; Cell.mk 4 1; Cell.mk 3 1; Cell.mk 2 1] /\
   dir near_food = DIRS.left /\ food near_food = Some (Cell.mk 1 1) /\
   grow near_food = 0 /\ playing near_food = true /\
   exists s', stepSnake E_const near_food = Some s' /\
     score s' = score near_food + 10 /\
     snake s' = [Cell.mk 4 1; Cell.mk 3 1; Cell.mk 2 1; Cell.mk 1 1] /\
     food s' = Some (Cell.mk 1 1) /\ Cell.mk 1 1 ∈ snake s').
Proof.
  split.
  - split; [vm_compute; reflexivity|]. split; [vm_compute; reflexivity|].
    split; [vm_compute; reflexivity|].
    split; [apply existsb_sameCell_false; vm_compute; reflexivity|].
    split; [vm_compute; reflexivity|].
    eexists. split; [vm_compute; reflexivity|].
    split; [reflexivity|]. split; [reflexivity|]. vm_compute. discriminate.
  - split; [vm_compute; reflexivity|]. split; [vm_compute; reflexivity|].
    split; [vm_compute; reflexivity|]. split; [vm_compute; reflexivity|].
    split; [vm_compute; reflexivity|].
    eexists. split; [vm_compute; reflexivity|].
    split; [vm_compute; reflexivity|]. split; [reflexivity|].
    split; [reflexivity|].
    apply existsb_sameCell. vm_compute. reflexivity.
Qed.

Ltac moving_step h :=
  exists h; split; [vm_compute; reflexivity|];
  split; [vm_compute; intuition discriminate|];
  split; [apply existsb_sameCell_false; vm_compute; reflexivity|];
  split; [vm_compute; congruence|vm_compute; reflexivity].

Lemma growth_by_steps_witness :
  (grow hungry = 0 /\ eatStep E_const hungry hungry1 /\
   grow hungry1 = 2 /\ quietSteps E_const 3 hungry1 hungry4 /\
   length (snake hungry4) = (length (snake hungry1) + 2)%nat) /\
  (grow peckish = 1 /\ eatStep E_const peckish peckish1 /\
   grow peckish1 = 2 /\ quietSteps E_const 3 peckish1 peckish4 /\
   length (snake peckish4) = (length (snake peckish1) + 2)%nat).
Proof.
  assert (He : eatStep E_const hungry hungry1)
    by (moving_step (Cell.mk 8 5)).
  assert (Hg : grow hungry1 = 2) by (vm_compute; reflexivity).
  assert (Hq : quietSteps E_const 3 hungry1 hungry4).
  { apply quiet_more with (s1 := stepped E_const hungry1) (d := DIRS.right);
      [moving_step (Cell.mk 9 5)|].
    apply quiet_more
      with (s1 := stepped E_const (stepped E_const hungry1)) (d := DIRS.right);
      [moving_step (Cell.mk 10 5)|].
    apply quiet_more with (s1 := hungry4) (d := DIRS.right);
      [moving_step (Cell.mk 11 5)|].
    apply quiet_none. }
  assert (He' : eatStep E_const peckish peckish1)
    by (moving_step (Cell.mk 8 5)).
  assert (Hg' : grow peckish1 = 2) by (vm_compute; reflexivity).
  assert (Hq' : quietSteps E_const 3 peckish1 peckish4).
  { apply quiet_more with (s1 := stepped E_const peckish1) (d := DIRS.right);
      [moving_step (Cell.mk 9 5)|].
    apply quiet_more
      with (s1 := stepped E_const (stepped E_const peckish1)) (d := DIRS.right);
      [moving_step (Cell.mk 10 5)|].
    apply quiet_more with (s1 := peckish4) (d := DIRS.right);
      [moving_step (Cell.mk 11 5)|].
    apply quiet_none. }
  split.
  - split; [reflexivity|]. split; [exact He|]. split; [exact Hg|].
    split; [exact Hq|].
    exact (proj2 (proj2 (growth_by_steps E_const)) hungry hungry1 hungry4
             3%nat He Hg Hq).
  - split; [reflexivity|]. split; [exact He'|]. split; [exact Hg'|].
    split; [exact Hq'|].
    exact (proj2 (proj2 (growth_by_steps E_const)) peckish peckish1 peckish4
             3%nat He' Hg' Hq').
Defined.

(** C4, as stated, fails in the game [started]: the first step eats with
    the counter at 0, the food falls right in front of the head again and
    the second step eats too, with the counter at 2. The snake then
    grows on steps 2, 3, 4 and 5: on four steps in a row after the first
    meal and on three after the second, where the claim has exactly two.
    No step collides. *)
Lemma growth_by_steps_counterexample :
  grow started = 0 /\ eatStep E_demo started started1 /\
  grow started1 = 2 /\ eatStep E_demo started1 started2 /\
  grow started2 = 3 /\
  quietStep E_demo started2 started3 /\
  quietStep E_demo started3 started4 /\
  quietStep E_demo started4 started5 /\
  quietStep E_demo started5 started6 /\
  map (fun s => length (snake s))
      [started; started1; started2; started3; started4; started5; started6]
  = [4; 4; 5; 6; 7; 8; 8]%nat.
Proof.
  split; [vm_compute; reflexivity|].
  split; [moving_step (Cell.mk 20 14)|].
  split; [vm_compute; reflexivity|].
  split; [moving_step (Cell.mk 21 14)|].
  split; [vm_compute; reflexivity|].
  split; [moving_step (Cell.mk 22 14)|].
  split; [moving_step (Cell.mk 23 14)|].
  split; [moving_step (Cell.mk 24 14)|].
  split; [moving_step (Cell.mk 25 14)|].
  vm_compute. reflexivity.
Qed.

(** C5: what the code does. The player presses Up and then Left between
    two steps. The frame after the first key already makes Up the
    current direction although no step has been taken (the snake and the
    snapshot are those of the new game); the second key is therefore
    accepted, the next frame makes Left the current direction, and the
    first step of the game runs the head, which was moving right, into
    its own neck. *)
Lemma direction_committed_every_frame :
  (exists s, run E_demo turn_up (init 0) = Some s /\
     playing s = true /\ dir s = DIRS.up /\
     snake s = snake started /\ prevSnake s = snake started /\
     (stepProgress s == 0.15)%Q) /\
  (exists s, run E_demo turn_back (init 0) = Some s /\
     dir s = DIRS.left /\ gameOver s = true /\ snake s = snake started).
Proof.
  split.
  - eexists. split; [vm_compute; reflexivity|].
    repeat (split; [vm_compute; reflexivity|]). vm_compute. reflexivity.
  - eexists. split; [vm_compute; reflexivity|].
    repeat (split; [vm_compute; reflexivity|]). vm_compute. reflexivity.
Qed.

(** The games of the counterexamples are games that can be played. *)
Lemma counterexample_states_committed :
  committed E_demo started1 /\ committed E_const near_food.
Proof.
  split.
  - apply committed_stepped, committed_start.
  - unfold near_food. apply committed_iter, committed_turn, committed_iter,
      committed_turn, committed_start.
Qed.

(** * Further properties of the code *)

(** ** Direction vectors and connected lists of cells *)

Lemma isDir_not_opposite (d : cell) : isDir d -> d <> opposite d.
Proof. intros [-> | [-> | [-> | ->]]]; discriminate. Qed.

Lemma isDir_adjacent (h d : cell) : isDir d -> adjacent h (newHeadOf h d).
Proof.
  intros [-> | [-> | [-> | ->]]]; unfold adjacent, newHeadOf; cbn; lia.
Qed.

Lemma adjacent_near (a b : cell) : adjacent a b -> near a b.
Proof. unfold adjacent, near. lia. Qed.

Lemma near_refl (a : cell) : near a a.
Proof. unfold near. lia. Qed.

Lemma connected_snoc (l : list cell) (h c : cell) :
  connected l -> last l = Some h -> adjacent h c -> connected (l ++ [c]).
Proof.
  intros Hl Hh Hadj i a b Ha Hb.
  destruct (decide (S i < length l)%nat) as [Hlt|Hge].
  - rewrite lookup_app_l in Ha by lia. rewrite lookup_app_l in Hb by lia.
    eapply Hl; eassumption.
  - assert (Hi : S i = length l).
    { apply lookup_lt_Some in Hb. rewrite length_app in Hb. cbn in Hb. lia. }
    rewrite lookup_app_l in Ha by lia.
    rewrite lookup_app_r in Hb by lia.
    replace (S i - length l)%nat with 0%nat in Hb by lia.
    cbn in Hb. injection Hb as <-.
    rewrite last_lookup in Hh. rewrite <- Hi in Hh. cbn [Nat.pred] in Hh.
    congruence.
Qed.

Lemma connected_tail (l : list cell) : connected l -> connected (tail l).
Proof.
  intros Hl i a b Ha Hb. rewrite lookup_tail in Ha, Hb.
  eapply Hl; eassumption.
Qed.

Lemma Forall_tail (P : cell -> Prop) (l : list cell) :
  Forall P l -> Forall P (tail l).
Proof. intros H. destruct H; [constructor | assumption]. Qed.

Lemma queueDirection_accepts (d : cell) (s : State) :
  queueDirection d s = s \/
  (queueDirection d s = set_nextDir d s /\ d <> opposite (dir s)).
Proof.
  unfold queueDirection.
  destruct ((Cell.x d + Cell.x (dir s) =? 0) && (Cell.y d + Cell.y (dir s) =? 0))
    eqn:H1;
  destruct ((Cell.x d + Cell.x (nextDir s) =? 0)
            && (Cell.y d + Cell.y (nextDir s) =? 0)) eqn:H2;
  cbn [orb]; try (left; reflexivity).
  right. split; [reflexivity|].
  intros ->. unfold opposite in H1. cbn [Cell.x Cell.y] in H1.
  rewrite !Z.add_opp_diag_l in H1. discriminate.
Qed.

Section Further.

Variable E : Env.

(** ** The fields of the state after a step *)

Lemma stepSnake_collided_fields (s s' : State) (h : cell) :
  last (snake s) = Some h ->
  ~ inGrid (newHeadOf h (dir s)) \/ newHeadOf h (dir s) ∈ snake s ->
  stepSnake E s = Some s' ->
  playing s' = false /\ gameOver s' = true /\ snake s' = snake s /\
  prevSnake s' = snake s /\ score s' = score s /\ grow s' = grow s /\
  food s' = food s /\ draws s' = (draws s + 4 * 36)%nat /\
  particles s' =
    particles s ++ burst E (draws s) 36 (centre (Cell.x h)) (centre (Cell.y h)).
Proof.
  intros Hh Hc Hs. rewrite (stepSnake_collides E s h Hh Hc) in Hs.
  apply (inj Some) in Hs. subst s'. repeat split.
Qed.

Lemma stepSnake_moved_fields (s s' : State) (h : cell) :
  last (snake s) = Some h ->
  inGrid (newHeadOf h (dir s)) ->
  newHeadOf h (dir s) ∉ snake s ->
  stepSnake E s = Some s' ->
  playing s' = playing s /\ gameOver s' = gameOver s /\
  prevSnake s' = snake s /\
  snake s' = (if grow s >? 0 then snake s ++ [newHeadOf h (dir s)]
              else tail (snake s ++ [newHeadOf h (dir s)])) /\
  (if bool_decide (food s = Some (newHeadOf h (dir s)))
   then score s' = score s + 10 /\
        grow s' = (if grow s >? 0 then grow s - 1 else grow s) + 2 /\
        particles s' =
          particles s ++ burst E (draws s) 18
                           (centre (Cell.x (newHeadOf h (dir s))))
                           (centre (Cell.y (newHeadOf h (dir s))))
   else score s' = score s /\
        grow s' = (if grow s >? 0 then grow s - 1 else grow s) /\
        food s' = food s /\ particles s' = particles s /\
        draws s' = draws s).
Proof.
  intros Hh Hin Hfree Hs.
  rewrite (stepSnake_moves E s h Hh Hin Hfree) in Hs.
  apply (inj Some) in Hs. subst s'. cbv zeta.
  destruct (advanced_fields (newHeadOf h (dir s)) s)
    as (_ & Ha2 & Ha3 & Ha4 & _ & Ha6 & _ & _ & Ha9 & Ha10 & _ & Ha12 & Ha13 & Ha14).
  destruct (bool_decide _).
  - destruct (eaten_fields E (newHeadOf h (dir s)) (score s + 10)
                (advanced (newHeadOf h (dir s)) s))
      as (_ & He2 & He3 & He4 & _ & He6 & He7 & _ & _ & He10 & _ & He12).
    rewrite He2, He3, He6, He7, He4, He10, He12, Ha2, Ha3, Ha6, Ha13, Ha14,
      Ha10, Ha12.
    repeat split.
  - rewrite Ha2, Ha3, Ha4, Ha6, Ha9, Ha10, Ha12, Ha13, Ha14. repeat split.
Qed.

(** ** Properties kept by every handler *)

Section Preserved.

Variable D : Q -> Prop.
Variable P : State -> Prop.
Hypothesis P_prim : forall a b : State, prim E D a b -> P a -> P b.

Lemma steps_for_preserves (n : nat) (s s' : State) :
  steps_for E n s = Some s' -> P s -> P s'.
Proof.
  revert s. induction n as [|n IH]; intros s Hrun HP; cbn [steps_for] in Hrun.
  - now injection Hrun as <-.
  - destruct (playing s) eqn:Hp; cbn [negb] in Hrun;
      [|now injection Hrun as <-].
    destruct (stepSnake E s) as [s1|] eqn:Hs; [|discriminate].
    cbn [mbind option_bind] in Hrun. apply (IH s1 Hrun).
    exact (P_prim s s1 (prim_step E D s s1 Hp Hs) HP).
Qed.

Lemma simulate_preserves (dt : Q) (s s' : State) :
  simulate E dt s = Some s' -> P s -> P s'.
Proof.
  unfold simulate. intros Hsim HP. destruct (playing s) eqn:Hp.
  2: { now injection Hsim as <-. }
  set (s1 := if negb (gameOver s) then set_dir (nextDir s) s else s) in Hsim.
  assert (HP1 : P s1).
  { subst s1. destruct (gameOver s) eqn:Hg; cbn [negb]; [exact HP|].
    exact (P_prim _ _ (prim_commit E D s Hp Hg) HP). }
  clearbody s1.
  set (s2 := set_stepProgress (stepProgress s1 + dt * STEPS_PER_SECOND) s1)
    in Hsim.
  assert (HP2 : P s2) by exact (P_prim _ _ (prim_progress E D s1 _) HP1).
  clearbody s2.
  destruct (Qle_bool 1 (stepProgress s2)); [|now injection Hsim as <-].
  eapply steps_for_preserves; [exact Hsim|].
  exact (P_prim _ _ (prim_progress E D s2 _) HP2).
Qed.

Lemma loop_preserves (now : Q) (s s' : State) :
  D (elapsed now s) -> loop E now s = Some s' -> P s -> P s'.
Proof.
  intros HD Hloop HP. unfold loop in Hloop. fold (elapsed now s) in Hloop.
  destruct (simulate E (elapsed now s) (set_lastNow now s)) as [s1|] eqn:Hsim;
    [|discriminate].
  cbn [mbind option_bind] in Hloop. rewrite updateParticles_spec in Hloop.
  cbn [mbind option_bind] in Hloop. injection Hloop as <-.
  apply (P_prim _ _ (prim_particles E D s1 (elapsed now s) HD)).
  apply (simulate_preserves _ _ _ Hsim).
  exact (P_prim _ _ (prim_last E D s now) HP).
Qed.

Lemma keydown_preserves (c : keycode) (s : State) : P s -> P (keydown E c s).
Proof.
  intros HP.
  assert (Hq : forall d, isDir d -> P (queueDirection d s))
    by (intros d Hd; exact (P_prim _ _ (prim_queue E D s d Hd) HP)).
  destruct c; cbn [keydown keyDirMap]; try exact HP;
    try (apply Hq; unfold isDir; tauto).
  destruct (playing s); cbn [negb]; [exact HP|].
  exact (P_prim _ _ (prim_start E D s) HP).
Qed.

Lemma handle_preserves (e : event) (s s' : State) :
  event_in D e s -> handle E e s = Some s' -> P s -> P s'.
Proof.
  intros HD He HP. destruct e as [c|now| |]; cbn [handle] in He.
  - injection He as <-. now apply keydown_preserves.
  - exact (loop_preserves now s s' HD He HP).
  - injection He as <-. exact (P_prim _ _ (prim_start E D s) HP).
  - injection He as <-. exact (P_prim _ _ (prim_stop E D s) HP).
Qed.

End Preserved.

Lemma run_preserves (P : State -> Prop) :
  (forall a b : State, prim E (fun _ => True) a b -> P a -> P b) ->
  forall (evs : list event) (s s' : State),
    run E evs s = Some s' -> P s -> P s'.
Proof.
  intros HP evs. induction evs as [|e evs IH]; intros s s' Hrun HPs;
    cbn [run] in Hrun.
  - now injection Hrun as <-.
  - destruct (handle E e s) as [s1|] eqn:He; [|discriminate].
    cbn [mbind option_bind] in Hrun. apply (IH s1 s' Hrun).
    apply (handle_preserves (fun _ => True) P HP e s s1); [|assumption..].
    destruct e; exact I.
Qed.

(** With a clock that does not run backwards, all elapsed times are
    non-negative. *)
Lemma run_preserves_clock (P : State -> Prop) :
  (forall a b : State, prim E (fun dt => (0 <= dt)%Q) a b -> P a -> P b) ->
  forall (evs : list event) (s s' : State),
    snake_ok s -> clock_ok (lastNow s) evs ->
    run E evs s = Some s' -> P s -> P s'.
Proof.
  intros HP evs. induction evs as [|e evs IH]; intros s s' Hok Hclock Hrun HPs;
    cbn [run] in Hrun.
  - now injection Hrun as <-.
  - destruct (handle_ok E e s Hok) as (s1 & He & Hok1 & Hl1 & _).
    rewrite He in Hrun. cbn [mbind option_bind] in Hrun.
    apply (IH s1 s' Hok1); [|exact Hrun|].
    + rewrite Hl1. destruct e; cbn [clock_ok] in Hclock; tauto.
    + apply (handle_preserves (fun dt => (0 <= dt)%Q) P HP e s s1);
        [|assumption..].
      destruct e; cbn [event_in clock_ok] in *; try exact I.
      apply elapsed_nonneg. tauto.
Qed.

(** ** The invariant of the game *)

Lemma init_game_inv (t0 : Q) : game_inv (init t0).
Proof.
  constructor; cbn; try discriminate; auto;
    try (unfold isDir; tauto); intros i a b Ha; discriminate Ha.
Qed.

Lemma startNewGame_game_inv (s : State) :
  running s = true -> game_inv (startNewGame E s).
Proof.
  intros Hr.
  destruct (startNewGame_fields E s)
    as (Hrun & Hplay & Hgo & Hsc & Hsp & Hsn & Hprev & Hdir & Hnd & Hg & _).
  constructor.
  - now rewrite Hrun.
  - intros _. rewrite Hgo, Hsn. split; [reflexivity | discriminate].
  - rewrite Hdir. unfold isDir; tauto.
  - rewrite Hnd. unfold isDir; tauto.
  - rewrite Hnd, Hdir. discriminate.
  - rewrite Hsn. repeat constructor; cbn; lia.
  - rewrite Hprev, Hsn. repeat constructor; cbn; lia.
  - rewrite Hsn. intros i a b Ha Hb.
    destruct i as [|[|[|i]]]; cbn in Ha, Hb;
      try (injection Ha as <-; injection Hb as <-; unfold adjacent; cbn; lia).
    destruct i; discriminate.
  - rewrite Hprev. intros i a b Ha Hb. rewrite Ha in Hb. injection Hb as <-.
    apply near_refl.
  - right. rewrite Hsn, Hg, Hsc. cbn. lia.
Qed.

Lemma stepSnake_game_inv (s s' : State) :
  stepSnake E s = Some s' -> game_inv s -> game_inv s'.
Proof.
  intros Hs [Hrun Hphase Hdir Hnd Hrev Hgrid Hpgrid Hconn Hsmooth Hacc].
  destruct (stepSnake_head E s s' Hs) as [h Hh].
  destruct (stepSnake_frame E s s' Hs) as (Hf1 & _ & Hf3 & Hf4 & _).
  assert (Hne : snake s <> []) by (intros Hnil; rewrite Hnil in Hh; discriminate).
  destruct (stepSnake_cases s h Hh) as [Hc | [Hin Hfree]].
  - destruct (stepSnake_collided_fields s s' h Hh Hc Hs)
      as (Hp & Hg & Hsn & Hpr & Hsc & Hgr & _).
    constructor.
    + congruence.
    + intros Hp'. congruence.
    + now rewrite Hf3.
    + now rewrite Hf4.
    + now rewrite Hf3, Hf4.
    + now rewrite Hsn.
    + now rewrite Hpr.
    + now rewrite Hsn.
    + rewrite Hpr, Hsn. intros i a b Ha Hb. rewrite Ha in Hb.
      injection Hb as <-. apply near_refl.
    + rewrite Hsn, Hsc, Hgr. exact Hacc.
  - destruct (stepSnake_moved_fields s s' h Hh Hin Hfree Hs)
      as (Hp & Hg & Hpr & Hsn & Heat).
    set (nh := newHeadOf h (dir s)) in *.
    assert (HgridL : Forall inGrid (snake s ++ [nh])).
    { apply Forall_app. split; [exact Hgrid|]. repeat constructor; apply Hin. }
    assert (HconnL : connected (snake s ++ [nh])).
    { apply (connected_snoc _ h nh Hconn Hh). apply isDir_adjacent, Hdir. }
    constructor.
    + congruence.
    + intros Hp'. rewrite Hp in Hp'. destruct (Hphase Hp') as [Hgo _].
      split; [congruence|]. eapply stepSnake_nonempty; eassumption.
    + now rewrite Hf3.
    + now rewrite Hf4.
    + now rewrite Hf3, Hf4.
    + rewrite Hsn. destruct (grow s >? 0); [|apply Forall_tail]; exact HgridL.
    + now rewrite Hpr.
    + rewrite Hsn. destruct (grow s >? 0); [|apply connected_tail];
        exact HconnL.
    + rewrite Hpr, Hsn. intros i a b Ha Hb.
      assert (HaL : (snake s ++ [nh]) !! i = Some a).
      { rewrite lookup_app_l; [exact Ha|]. eapply lookup_lt_Some, Ha. }
      destruct (grow s >? 0).
      * rewrite HaL in Hb. injection Hb as <-. apply near_refl.
      * rewrite lookup_tail in Hb. apply adjacent_near.
        exact (HconnL i a b HaL Hb).
    + destruct Hacc as [(Hnil & _) | (Hlen & Hg0 & Hscore)]; [contradiction|].
      right.
      assert (HlenL : length (snake s') =
                      if grow s >? 0 then S (length (snake s))
                      else length (snake s)).
      { rewrite Hsn. destruct (grow s >? 0).
        - rewrite length_app. cbn. lia.
        - rewrite length_tl, length_app. cbn. lia. }
      destruct (bool_decide _).
      * destruct Heat as (Hsc & Hgr & _). rewrite HlenL, Hsc, Hgr.
        destruct (Z.gtb_spec (grow s) 0); lia.
      * destruct Heat as (Hsc & Hgr & _). rewrite HlenL, Hsc, Hgr.
        destruct (Z.gtb_spec (grow s) 0); lia.
Qed.

Lemma prim_game_inv (D : Q -> Prop) (a b : State) :
  prim E D a b -> game_inv a -> game_inv b.
Proof.
  intros Hprim Hinv.
  destruct Hprim as [s|s d Hd|s Hp Hg|s q|s t|s s' Hp Hs|s dt _|s].
  - apply startNewGame_game_inv, Hinv.
  - destruct (queueDirection_accepts d s) as [-> | [-> Hno]]; [exact Hinv|].
    destruct Hinv. constructor; assumption.
  - destruct Hinv as [? ? ? Hnd ? ? ? ? ? ?]. constructor; try assumption.
    cbn [dir nextDir set_dir]. apply isDir_not_opposite, Hnd.
  - destruct Hinv. constructor; assumption.
  - destruct Hinv. constructor; assumption.
  - eapply stepSnake_game_inv; eassumption.
  - destruct Hinv. constructor; assumption.
  - destruct Hinv. constructor; try assumption. intros Hp. discriminate Hp.
Qed.

(** Every run from the start screen is handled to its end, and the
    invariant holds there. *)
Lemma run_game_inv (t0 : Q) (evs : list event) :
  exists s, run E evs (init t0) = Some s /\ game_inv s.
Proof.
  destruct (init_ok t0) as [Hok _].
  destruct (run_ok E evs (init t0) Hok) as (s & Hs & _).
  exists s. split; [exact Hs|].
  apply (run_preserves game_inv (prim_game_inv (fun _ => True))
           evs (init t0) s Hs).
  apply init_game_inv.
Qed.

(** ** The snake, the score and the directions in every run *)

(** X1. From the start screen, whatever the keys, frames and debug calls:
    every event is handled, every segment of the snake and of the
    previous snapshot is a cell of the grid, each segment shares a side
    with the next one, and the snake is empty (no game started yet) or
    has at least 4 segments. *)
Theorem snake_shape (t0 : Q) (evs : list event) :
  exists s, run E evs (init t0) = Some s /\
    Forall inGrid (snake s) /\ Forall inGrid (prevSnake s) /\
    connected (snake s) /\
    (snake s = [] \/ (4 <= length (snake s))%nat).
Proof.
  destruct (run_game_inv t0 evs) as (s & Hs & Hinv).
  exists s. split; [exact Hs|].
  split; [apply Hinv|]. split; [apply Hinv|]. split; [apply Hinv|].
  destruct (inv_account s Hinv) as [(Hnil & _) | (Hlen & _)]; auto.
Qed.

(** X2. In every state of a run in which a game has been started, the
    growth counter is not negative and the score is 5 times the number
    of segments gained or still to be gained: 10 points for each meal,
    2 segments for each meal. *)
Theorem score_counts_growth (t0 : Q) (evs : list event) :
  exists s, run E evs (init t0) = Some s /\
    0 <= grow s /\
    (snake s <> [] ->
     score s = 5 * (Z.of_nat (length (snake s)) + grow s - 4)).
Proof.
  destruct (run_game_inv t0 evs) as (s & Hs & Hinv).
  exists s. split; [exact Hs|].
  destruct (inv_account s Hinv) as [(Hnil & _ & Hg) | (_ & Hg & Hsc)].
  - split; [lia | contradiction].
  - split; [exact Hg | intros _; exact Hsc].
Qed.

(** ** A frame takes at most one step *)

Lemma Qfloor_one (x : Q) : (1 <= x)%Q -> (x < 2)%Q -> Qfloor x = 1.
Proof.
  intros H1 H2.
  assert (Hlt : Qfloor x < 2).
  { rewrite Zlt_Qlt. apply Qle_lt_trans with x; [apply Qfloor_le | exact H2]. }
  assert (Hgt : 1 < Qfloor x + 1).
  { rewrite Zlt_Qlt. apply Qle_lt_trans with x; [exact H1 | apply Qlt_floor]. }
  lia.
Qed.

Lemma loop_simulate (now : Q) (s s' : State) :
  loop E now s = Some s' ->
  exists s1, simulate E (elapsed now s) (set_lastNow now s) = Some s1 /\
    s' = set_particles (omap (integrate1 (elapsed now s)) (particles s1)) s1.
Proof.
  intros Hloop. unfold loop in Hloop. fold (elapsed now s) in Hloop.
  destruct (simulate E (elapsed now s) (set_lastNow now s)) as [s1|];
    [|discriminate].
  cbn [mbind option_bind] in Hloop. rewrite updateParticles_spec in Hloop.
  cbn [mbind option_bind] in Hloop. injection Hloop as <-. eauto.
Qed.

(** The simulation part of a frame, when the progress is a fraction and
    the elapsed time is clamped: nothing, or progress only, or progress
    and exactly one step. *)
Lemma simulate_cases (dt : Q) (s s' : State) :
  progress_ok s -> (dt <= 0.1)%Q -> simulate E dt s = Some s' ->
  (playing s = false /\ s' = s) \/
  (playing s = true /\ exists q,
     let s0 := set_stepProgress q
                 (if negb (gameOver s) then set_dir (nextDir s) s else s) in
     s' = s0 \/ stepSnake E s0 = Some s').
Proof.
  intros [H0 H1] Hdt. unfold simulate. destruct (playing s) eqn:Hp.
  2: { intros [= <-]. left. split; reflexivity. }
  intros Hsim. right. split; [reflexivity|].
  set (s1 := if negb (gameOver s) then set_dir (nextDir s) s else s) in *.
  assert (Hp1 : playing s1 = true /\ stepProgress s1 = stepProgress s).
  { subst s1. destruct (gameOver s); cbn [negb]; auto. }
  destruct Hp1 as [Hp1 Hsp1]. clearbody s1.
  cbn [stepProgress set_stepProgress] in Hsim. rewrite Hsp1 in Hsim.
  set (x := (stepProgress s + dt * STEPS_PER_SECOND)%Q) in *.
  destruct (Qle_bool 1 x) eqn:Hle.
  - apply Qle_bool_iff in Hle.
    assert (Hx : (x < 2)%Q) by (subst x; unfold STEPS_PER_SECOND; lra).
    rewrite (Qfloor_one x Hle Hx) in Hsim.
    change (Z.to_nat 1) with 1%nat in Hsim.
    replace (set_stepProgress (x - inject_Z 1) (set_stepProgress x s1))
      with (set_stepProgress (x - inject_Z 1) s1) in Hsim
      by (destruct s1; reflexivity).
    cbn [steps_for] in Hsim.
    cbn [playing set_stepProgress] in Hsim. rewrite Hp1 in Hsim.
    cbn [negb] in Hsim.
    exists (x - inject_Z 1)%Q. right.
    destruct (stepSnake E (set_stepProgress (x - inject_Z 1) s1)) as [s2|];
      [|discriminate].
    cbn [mbind option_bind] in Hsim. now injection Hsim as <-.
  - exists x. left. now injection Hsim as <-.
Qed.

Lemma last_tail_snoc (l : list cell) (h c : cell) :
  last l = Some h -> last (tail (l ++ [c])) = Some c.
Proof.
  destruct l as [|a l]; [discriminate|]. intros _. cbn [app tail].
  apply last_snoc.
Qed.

(** X5. A frame moves the head by at most one cell, however long the
    time since the previous frame: when the progress is a fraction of a
    step, after the frame the head is where it was or one cell further
    in the direction committed by the frame (the pending direction,
    while the game is played). *)
Theorem frame_moves_at_most_once (now : Q) (s s' : State) (h : cell) :
  progress_ok s ->
  last (snake s) = Some h ->
  loop E now s = Some s' ->
  last (snake s') = Some h \/
  last (snake s') =
    Some (newHeadOf h (if gameOver s then dir s else nextDir s)).
Proof.
  intros Hprog Hh Hloop.
  destruct (loop_simulate now s s' Hloop) as (s1 & Hsim & ->).
  cbn [snake set_particles].
  destruct (simulate_cases (elapsed now s) (set_lastNow now s) s1 Hprog
              (elapsed_clamped now s) Hsim)
    as [(_ & ->) | (_ & q & [-> | Hstep])].
  - left. exact Hh.
  - left. cbn [gameOver set_lastNow]. destruct (gameOver s); exact Hh.
  - cbv zeta in Hstep.
    set (s0 := set_stepProgress q
                 (if negb (gameOver (set_lastNow now s))
                  then set_dir (nextDir (set_lastNow now s)) (set_lastNow now s)
                  else set_lastNow now s)) in *.
    assert (Hs0 : snake s0 = snake s /\ grow s0 = grow s /\
                  dir s0 = if gameOver s then dir s else nextDir s).
    { subst s0. cbn [gameOver nextDir set_lastNow].
      destruct (gameOver s); cbn [negb]; repeat split. }
    destruct Hs0 as (Hsn0 & Hg0 & Hd0).
    assert (Hh0 : last (snake s0) = Some h) by (rewrite Hsn0; exact Hh).
    clearbody s0.
    destruct (stepSnake_cases s0 h Hh0) as [Hc | [Hin Hfree]].
    + destruct (stepSnake_collided_fields s0 s1 h Hh0 Hc Hstep)
        as (_ & _ & Hsn & _).
      left. now rewrite Hsn, Hsn0.
    + destruct (stepSnake_moved_fields s0 s1 h Hh0 Hin Hfree Hstep)
        as (_ & _ & _ & Hsn & _).
      right. rewrite Hsn, <- Hd0. destruct (grow s0 >? 0).
      * apply last_snoc.
      * apply last_tail_snoc with h. exact Hh0.
Qed.

Lemma loop_dir (now : Q) (s s' : State) :
  loop E now s = Some s' -> dir s' = dir s \/ dir s' = nextDir s.
Proof.
  intros Hloop. destruct (loop_simulate now s s' Hloop) as (s1 & Hsim & ->).
  cbn [dir set_particles]. unfold simulate in Hsim.
  cbn [playing gameOver nextDir set_lastNow] in Hsim.
  destruct (playing s); [|injection Hsim as <-; left; reflexivity].
  set (s0 := if negb (gameOver s) then _ else _) in Hsim.
  assert (Hd0 : dir s0 = dir s \/ dir s0 = nextDir s).
  { subst s0. destruct (gameOver s); cbn [negb]; auto. }
  clearbody s0.
  set (s2 := set_stepProgress _ s0) in Hsim.
  assert (Hd2 : dir s2 = dir s0) by reflexivity. clearbody s2.
  destruct (Qle_bool 1 (stepProgress s2)).
  - assert (Hd : dir s1 = dir s0).
    { apply (steps_for_inv E (fun a => dir a = dir s0)) in Hsim;
        [exact Hsim | | exact Hd2].
      intros a b Hab Ha. destruct (stepSnake_frame E a b Hab) as (_ & _ & -> & _).
      exact Ha. }
    now rewrite Hd.
  - injection Hsim as <-. now rewrite Hd2.
Qed.

(** X3. In every state of a run, the current and the pending direction
    are two of the four unit vectors and the pending direction is not
    the reverse of the current one; so no frame turns the snake by 180
    degrees: after any further frame the current direction is not the
    reverse of what it was before that frame. *)
Theorem directions_in_a_run (t0 : Q) (evs : list event) :
  exists s, run E evs (init t0) = Some s /\
    isDir (dir s) /\ isDir (nextDir s) /\ nextDir s <> opposite (dir s) /\
    forall (now : Q) (s' : State),
      loop E now s = Some s' -> dir s' <> opposite (dir s).
Proof.
  destruct (run_game_inv t0 evs) as (s & Hs & Hinv).
  exists s. split; [exact Hs|].
  split; [apply Hinv|]. split; [apply Hinv|]. split; [apply Hinv|].
  intros now s' Hloop. destruct (loop_dir now s s' Hloop) as [-> | ->].
  - apply isDir_not_opposite, Hinv.
  - apply Hinv.
Qed.

(** X4. In every state of a run, [running] is true, [playing] and
    [gameOver] are never both true, and while [playing] is true the
    snake has a head: a step never reads a missing head. *)
Theorem phases_in_a_run (t0 : Q) (evs : list event) :
  exists s, run E evs (init t0) = Some s /\
    running s = true /\
    (playing s = true -> gameOver s = false /\ snake s <> []).
Proof.
  destruct (run_game_inv t0 evs) as (s & Hs & Hinv).
  exists s. split; [exact Hs|]. split; apply Hinv.
Qed.

(** ** The food in every run *)

Lemma placeFood_inGrid (s : State) :
  random_in_range E ->
  exists c, food (placeFood E s) = Some c /\ inGrid c.
Proof.
  intros Hr.
  destruct (placeFood_cases E s) as [(k & _ & _ & _ & ->) | (_ & ->)];
    eexists; (split; [reflexivity|]).
  - apply sampleCell_inGrid, Hr.
  - unfold inGrid, GRID_W, GRID_H. cbn. lia.
Qed.

Lemma prim_food_ok (D : Q -> Prop) (a b : State) :
  random_in_range E -> prim E D a b -> food_ok a -> food_ok b.
Proof.
  intros Hr Hprim Hok.
  destruct Hprim as [s|s d Hd|s Hp Hg|s q|s t|s s' Hp Hs|s dt _|s];
    try exact Hok.
  - right. destruct (startNewGame_fields E s)
      as (_ & _ & _ & _ & _ & Hsn & _).
    split; [rewrite Hsn; discriminate|].
    unfold startNewGame. cbv zeta. apply placeFood_inGrid, Hr.
  - destruct (queueDirection_accepts d s) as [-> | [-> _]]; exact Hok.
  - right. split; [eapply stepSnake_nonempty; eassumption|].
    destruct (stepSnake_head E s s' Hs) as [h Hh].
    assert (Hne : snake s <> [])
      by (intros Hnil; rewrite Hnil in Hh; discriminate).
    destruct Hok as [(Hnil & _) | (_ & Hfood)]; [contradiction|].
    destruct (stepSnake_cases s h Hh) as [Hc | [Hin Hfree]].
    + destruct (stepSnake_collided_fields s s' h Hh Hc Hs)
        as (_ & _ & _ & _ & _ & _ & Hf & _).
      now rewrite Hf.
    + rewrite (stepSnake_moves E s h Hh Hin Hfree) in Hs.
      apply (inj Some) in Hs. subst s'. cbv zeta.
      destruct (bool_decide _).
      * apply placeFood_inGrid, Hr.
      * destruct (advanced_fields (newHeadOf h (dir s)) s)
          as (_ & _ & _ & _ & _ & _ & _ & _ & Hf & _).
        now rewrite Hf.
Qed.

(** X6. With [Math.random] in [[0,1)], in every state of a run: before
    the first game there is no food and [render] draws none; once a game
    has been started there is always a food, it is a cell of the grid,
    and the square that [render] draws for it lies on the canvas. *)
Theorem food_in_a_run (t0 : Q) (evs : list event) :
  random_in_range E ->
  exists s, run E evs (init t0) = Some s /\
    ((snake s = [] /\ food s = None /\ renderFood s = None) \/
     (snake s <> [] /\
      exists c r, food s = Some c /\ inGrid c /\
                  renderFood s = Some r /\ onCanvas r)).
Proof.
  intros Hr. destruct (init_ok t0) as [Hok _].
  destruct (run_ok E evs (init t0) Hok) as (s & Hs & _).
  exists s. split; [exact Hs|].
  assert (Hfood : food_ok s).
  { apply (run_preserves food_ok
             (fun a b => prim_food_ok (fun _ => True) a b Hr)
             evs (init t0) s Hs).
    left. split; reflexivity. }
  destruct Hfood as [(Hnil & Hnone) | (Hne & c & Hc & Hin)].
  - left. split; [exact Hnil|]. split; [exact Hnone|].
    unfold renderFood. now rewrite Hnone.
  - right. split; [exact Hne|].
    exists c, (Cell.x c * CELL, Cell.y c * CELL).
    split; [exact Hc|]. split; [exact Hin|]. split.
    + unfold renderFood. now rewrite Hc.
    + unfold onCanvas, inGrid, CELL, GRID_W, GRID_H in *. cbn [fst snd]. lia.
Qed.

(** ** The particles in every run *)

Lemma newParticle_alive (k : nat) (cx cy : Q) :
  random_in_range E -> alive (newParticle E k cx cy).
Proof.
  intros Hr. unfold alive, newParticle. cbn [Particle.life Particle.size].
  destruct (Hr (k + 2)%nat) as [Hl0 Hl1].
  destruct (Hr (k + 3)%nat) as [Hs0 Hs1].
  split; [lra|]. split; [lra|].
  pose proof (Qfloor_scaled (Math_random E (k + 3)) 3 Hs0 Hs1 eq_refl) as Hf.
  change (inject_Z 3) with 3%Q in Hf. lia.
Qed.

Lemma burst_alive (d n : nat) (cx cy : Q) :
  random_in_range E -> Forall alive (burst E d n cx cy).
Proof.
  intros Hr. unfold burst. apply Forall_forall. intros p Hp.
  apply list_elem_of_In, in_map_iff in Hp. destruct Hp as (i & <- & _).
  apply newParticle_alive, Hr.
Qed.

Lemma integrate_alive (dt : Q) (ps : list particle) :
  (0 <= dt)%Q -> Forall alive ps -> Forall alive (omap (integrate1 dt) ps).
Proof.
  intros Hdt Hps. apply Forall_forall. intros p' Hp'.
  apply list_elem_of_omap in Hp'. destruct Hp' as (p & Hp & Hi).
  rewrite Forall_forall in Hps. destruct (Hps p Hp) as (H0 & H1 & Hsz).
  apply integrate1_Some in Hi. destruct Hi as [Hlt ->].
  unfold alive. cbn [Particle.life Particle.size physics age].
  split; [lra|]. split; [lra | exact Hsz].
Qed.

Lemma prim_alive (a b : State) :
  random_in_range E ->
  prim E (fun dt => (0 <= dt)%Q) a b ->
  Forall alive (particles a) -> Forall alive (particles b).
Proof.
  intros Hr Hprim Hok.
  destruct Hprim as [s|s d Hd|s Hp Hg|s q|s t|s s' Hp Hs|s dt Hdt|s];
    try exact Hok.
  - destruct (startNewGame_fields E s)
      as (_ & _ & _ & _ & _ & _ & _ & _ & _ & _ & Hpa & _).
    now rewrite Hpa.
  - destruct (queueDirection_accepts d s) as [-> | [-> _]]; exact Hok.
  - destruct (stepSnake_head E s s' Hs) as [h Hh].
    destruct (stepSnake_cases s h Hh) as [Hc | [Hin Hfree]].
    + destruct (stepSnake_collided_fields s s' h Hh Hc Hs)
        as (_ & _ & _ & _ & _ & _ & _ & _ & Hpa).
      rewrite Hpa. apply Forall_app. split; [exact Hok|].
      apply burst_alive, Hr.
    + destruct (stepSnake_moved_fields s s' h Hh Hin Hfree Hs)
        as (_ & _ & _ & _ & Heat).
      destruct (bool_decide _).
      * destruct Heat as (_ & _ & Hpa). rewrite Hpa.
        apply Forall_app. split; [exact Hok|]. apply burst_alive, Hr.
      * destruct Heat as (_ & _ & _ & Hpa & _). now rewrite Hpa.
  - cbn [particles set_particles]. now apply integrate_alive.
Qed.

(** X7. With [Math.random] in [[0,1)] and a clock that does not run
    backwards, every particle in every state of a run has a remaining
    lifetime above 0 and below 1 second and a size of 1, 2 or 3: no
    dead particle is ever kept or drawn. *)
Theorem particles_in_a_run (t0 : Q) (evs : list event) :
  random_in_range E -> clock_ok t0 evs ->
  exists s, run E evs (init t0) = Some s /\ Forall alive (particles s).
Proof.
  intros Hr Hclock. destruct (init_ok t0) as [Hok _].
  destruct (run_ok E evs (init t0) Hok) as (s & Hs & _).
  exists s. split; [exact Hs|].
  apply (run_preserves_clock (fun a => Forall alive (particles a))
           (fun a b => prim_alive a b Hr) evs (init t0) s Hok Hclock Hs).
  constructor.
Qed.

(** ** What [render] draws for the snake *)

Lemma Math_round_bounds (q : Q) (lo hi : Z) :
  (inject_Z lo <= q)%Q -> (q <= inject_Z hi)%Q -> lo <= Math_round q <= hi.
Proof.
  intros Hlo Hhi. unfold Math_round. split.
  - rewrite <- (Qfloor_Z lo). apply Qfloor_resp_le. lra.
  - assert (Hlt : Qfloor (q + 0.5) < hi + 1); [|lia].
    rewrite Zlt_Qlt. apply Qle_lt_trans with (q + 0.5)%Q; [apply Qfloor_le|].
    rewrite inject_Z_plus. change (inject_Z 1) with 1%Q. lra.
Qed.

(** A coordinate is drawn between where the segment was and where it
    is. *)
Lemma drawn_coordinate (pa ca : Z) (t : Q) :
  (0 <= t)%Q -> (t < 1)%Q ->
  Z.min pa ca * CELL
  <= Math_round (lerp (inject_Z pa) (inject_Z ca) t * inject_Z CELL)
  <= Z.max pa ca * CELL.
Proof.
  intros H0 H1. apply Math_round_bounds; rewrite inject_Z_mult;
    unfold lerp, CELL; change (inject_Z 14) with 14%Q.
  - destruct (Z.le_ge_cases pa ca) as [Hle | Hle].
    + rewrite Z.min_l by exact Hle. rewrite Zle_Qle in Hle. nra.
    + rewrite Z.min_r by exact Hle. rewrite Zle_Qle in Hle. nra.
  - destruct (Z.le_ge_cases pa ca) as [Hle | Hle].
    + rewrite Z.max_r by exact Hle. rewrite Zle_Qle in Hle. nra.
    + rewrite Z.max_l by exact Hle. rewrite Zle_Qle in Hle. nra.
Qed.

(** The square of segment [i]: between the previous and the current
    position of that segment, which are grid cells, equal or side by
    side. *)
Lemma drawn_segment (s : State) (i : nat) (c : cell) (r : Z * Z) :
  game_inv s -> progress_ok s ->
  snake s !! i = Some c -> renderSnake s !! i = Some r ->
  exists p, inGrid p /\ inGrid c /\ near p c /\
    Z.min (Cell.x p) (Cell.x c) * CELL <= fst r
      <= Z.max (Cell.x p) (Cell.x c) * CELL /\
    Z.min (Cell.y p) (Cell.y c) * CELL <= snd r
      <= Z.max (Cell.y p) (Cell.y c) * CELL.
Proof.
  intros Hinv [H0 H1] Hc Hr.
  unfold renderSnake in Hr. rewrite list_lookup_imap, Hc in Hr.
  cbn [fmap option_fmap option_map] in Hr. injection Hr as <-.
  assert (Hcg : inGrid c).
  { pose proof (inv_grid s Hinv) as Hg. rewrite Forall_forall in Hg.
    apply Hg. eapply list_elem_of_lookup_2, Hc. }
  exists (default c (prevSnake s !! i)).
  destruct (prevSnake s !! i) as [p|] eqn:Hp; cbn [default fst snd].
  - split.
    { pose proof (inv_prev_grid s Hinv) as Hg. rewrite Forall_forall in Hg.
      apply Hg. eapply list_elem_of_lookup_2, Hp. }
    split; [exact Hcg|]. split; [exact (inv_smooth s Hinv i p c Hp Hc)|].
    split; apply drawn_coordinate; assumption.
  - split; [exact Hcg|]. split; [exact Hcg|]. split; [apply near_refl|].
    split; apply drawn_coordinate; assumption.
Qed.

Lemma run_both (t0 : Q) (evs : list event) :
  clock_ok t0 evs ->
  exists s, run E evs (init t0) = Some s /\ game_inv s /\ progress_ok s.
Proof.
  intros Hclock. destruct (init_ok t0) as [Hok Hp].
  destruct (run_ok E evs (init t0) Hok) as (s & Hs & _ & Hps).
  destruct (run_game_inv t0 evs) as (s2 & Hs2 & Hinv).
  rewrite Hs in Hs2. injection Hs2 as <-.
  exists s. split; [exact Hs|]. split; [exact Hinv|]. now apply Hps.
Qed.

(** X9. With a clock that does not run backwards, in every state of a
    run [render] draws one square per segment of the snake, and every
    one of these squares lies on the canvas. *)
Theorem snake_drawn_on_canvas (t0 : Q) (evs : list event) :
  clock_ok t0 evs ->
  exists s, run E evs (init t0) = Some s /\
    length (renderSnake s) = length (snake s) /\
    Forall onCanvas (renderSnake s).
Proof.
  intros Hclock. destruct (run_both t0 evs Hclock) as (s & Hs & Hinv & Hp).
  exists s. split; [exact Hs|]. split; [apply length_imap|].
  apply Forall_forall. intros r Hr.
  apply list_elem_of_lookup in Hr. destruct Hr as [i Hi].
  assert (Hc : exists c, snake s !! i = Some c).
  { unfold renderSnake in Hi. rewrite list_lookup_imap in Hi.
    destruct (snake s !! i) as [c|]; [eauto | discriminate]. }
  destruct Hc as [c Hc].
  destruct (drawn_segment s i c r Hinv Hp Hc Hi)
    as (p & Hpg & Hcg & _ & Hx & Hy).
  unfold onCanvas, inGrid, CELL, GRID_W, GRID_H in *. lia.
Qed.

(** X10. With a clock that does not run backwards, in every state of a
    run the square drawn for a segment is at most one cell away from the
    cell of that segment, in one coordinate only: the drawn snake never
    jumps and never cuts a corner. *)
Theorem snake_drawn_near (t0 : Q) (evs : list event) :
  clock_ok t0 evs ->
  exists s, run E evs (init t0) = Some s /\
    forall (i : nat) (c : cell) (r : Z * Z),
      snake s !! i = Some c -> renderSnake s !! i = Some r ->
      Z.abs (fst r - Cell.x c * CELL) + Z.abs (snd r - Cell.y c * CELL)
      <= CELL /\
      (fst r = Cell.x c * CELL \/ snd r = Cell.y c * CELL).
Proof.
  intros Hclock. destruct (run_both t0 evs Hclock) as (s & Hs & Hinv & Hp).
  exists s. split; [exact Hs|]. intros i c r Hc Hr.
  destruct (drawn_segment s i c r Hinv Hp Hc Hr)
    as (p & _ & _ & Hnear & Hx & Hy).
  unfold near, CELL in *. lia.
Qed.

(** ** Keys *)

(** X11. Queueing the same direction twice is queueing it once. *)
Theorem queueDirection_idempotent (d : cell) (s : State) :
  queueDirection d (queueDirection d s) = queueDirection d s.
Proof.
  destruct (queueDirection_accepts d s) as [Hs | [Hs Hno]].
  - now rewrite !Hs.
  - rewrite Hs.
    destruct (queueDirection_accepts d (set_nextDir d s)) as [H2 | [H2 _]];
      rewrite H2; [reflexivity|]. destruct s; reflexivity.
Qed.

(** X12. A key press never touches the game itself. Space starts a new
    game when none is being played and does nothing during a game; any
    other key changes at most the pending direction. *)
Theorem keydown_effect (c : keycode) (s : State) :
  (c = Space -> playing s = false -> keydown E c s = startNewGame E s) /\
  (c = Space -> playing s = true -> keydown E c s = s) /\
  (c <> Space -> keydown E c s = set_nextDir (nextDir (keydown E c s)) s).
Proof.
  split; [|split].
  - intros -> Hp. cbn [keydown keyDirMap]. now rewrite Hp.
  - intros -> Hp. cbn [keydown keyDirMap]. now rewrite Hp.
  - intros Hc. destruct c; try contradiction; cbn [keydown keyDirMap];
      try (destruct s; reflexivity);
      match goal with
      | |- context [queueDirection ?d s] =>
          destruct (queueDirection_accepts d s) as [-> | [-> _]];
            destruct s; reflexivity
      end.
Qed.

(** ** A new game *)

Lemma placeFood_while_ignores_food (n : nat) (f : option cell) (s : State) :
  placeFood_while E n (set_food f s) = placeFood_while E n s.
Proof.
  revert s. induction n as [|n IH]; intros s.
  - destruct s; reflexivity.
  - cbn [placeFood_while]. cbn [draws snake set_food set_draws].
    destruct (negb _).
    + destruct s; reflexivity.
    + change (set_draws (S (S (draws s))) (set_food f s))
        with (set_food f (set_draws (S (S (draws s))) s)).
      apply IH.
Qed.

(** X13. [startNewGame] resets the game whatever the state it is called
    in: it is being played, the score, the growth counter and the
    progress are 0, both directions are right, the snake and the
    snapshot are the four cells (17,14) to (20,14), and there is a food,
    which is not on the snake (the fallback cell (1,1) is not either).
    The particles of the game before keep flying. *)
Theorem startNewGame_resets (s : State) :
  playing (startNewGame E s) = true /\
  gameOver (startNewGame E s) = false /\
  score (startNewGame E s) = 0 /\ grow (startNewGame E s) = 0 /\
  (stepProgress (startNewGame E s) = 0)%Q /\
  dir (startNewGame E s) = DIRS.right /\
  nextDir (startNewGame E s) = DIRS.right /\
  snake (startNewGame E s)
    = [Cell.mk 17 14; Cell.mk 18 14; Cell.mk 19 14; Cell.mk 20 14] /\
  prevSnake (startNewGame E s) = snake (startNewGame E s) /\
  particles (startNewGame E s) = particles s /\
  exists c, food (startNewGame E s) = Some c /\
            (c ∉ snake (startNewGame E s)).
Proof.
  destruct (startNewGame_fields E s)
    as (_ & H2 & H3 & H4 & H5 & H6 & H7 & H8 & H9 & H10 & H11 & _).
  split; [exact H2|]. split; [exact H3|]. split; [exact H4|].
  split; [exact H10|]. split; [exact H5|]. split; [exact H8|].
  split; [exact H9|]. split; [exact H6|]. split; [exact H7|].
  split; [exact H11|].
  rewrite H6. unfold startNewGame. cbv zeta.
  match goal with
  | |- context [placeFood E ?x] =>
      destruct (placeFood_cases E x) as [(k & _ & _ & Hfree & ->) | (_ & ->)]
  end.
  - eexists. split; [reflexivity|]. exact Hfree.
  - eexists. split; [reflexivity|].
    rewrite !elem_of_cons, elem_of_nil. intuition discriminate.
Qed.

(** X14. A new game forgets the game before: the state after
    [startNewGame] depends on the state it is called in only through
    [running], the particles, the time of the last frame and the number
    of random numbers drawn. *)
Theorem startNewGame_forgets (s1 s2 : State) :
  running s1 = running s2 -> particles s1 = particles s2 ->
  lastNow s1 = lastNow s2 -> draws s1 = draws s2 ->
  startNewGame E s1 = startNewGame E s2.
Proof.
  intros Hr Hp Hl Hd. unfold startNewGame, placeFood. cbv zeta.
  match goal with
  | |- placeFood_while E ?n ?a = placeFood_while E ?n ?b =>
      rewrite <- (placeFood_while_ignores_food n None a);
      rewrite <- (placeFood_while_ignores_food n None b);
      apply (f_equal (placeFood_while E n))
  end.
  destruct s1, s2. cbn [running particles lastNow draws] in Hr, Hp, Hl, Hd.
  subst. reflexivity.
Qed.

End Further.

(** *** Instances of the further properties *)

Lemma frame_moves_at_most_once_witness :
  progress_ok halfway /\
  last (snake halfway) = Some (Cell.mk 20 14) /\
  loop E_demo 100 halfway = Some halfway_framed /\
  last (snake halfway_framed) = Some (Cell.mk 21 14).
Proof.
  assert (Hp : progress_ok halfway) by (split; now compute).
  assert (Hh : last (snake halfway) = Some (Cell.mk 20 14))
    by (vm_compute; reflexivity).
  assert (Hl : loop E_demo 100 halfway = Some halfway_framed)
    by (vm_compute; reflexivity).
  split; [exact Hp|]. split; [exact Hh|]. split; [exact Hl|].
  destruct (frame_moves_at_most_once E_demo 100 halfway halfway_framed
              (Cell.mk 20 14) Hp Hh Hl) as [Hsame | Hmoved].
  - exfalso. vm_compute in Hsame. discriminate Hsame.
  - rewrite Hmoved. vm_compute. reflexivity.
Defined.

Lemma food_in_a_run_witness :
  random_in_range E_demo /\
  exists s, run E_demo [Keydown Space; Frame 100] (init 0) = Some s /\
    snake s <> [] /\ exists c, food s = Some c /\ inGrid c.
Proof.
  split; [exact E_demo_range|].
  destruct (food_in_a_run E_demo 0 [Keydown Space; Frame 100] E_demo_range)
    as (s & Hs & [(Hnil & _) | (Hne & c & r & Hc & Hin & _)]).
  - exfalso. vm_compute in Hs. injection Hs as <-. discriminate Hnil.
  - exists s. split; [exact Hs|]. split; [exact Hne|]. exists c. auto.
Defined.

Lemma particles_in_a_run_witness :
  random_in_range E_demo /\
  clock_ok 0 [Keydown Space; Frame 100; Frame 200] /\
  exists s, run E_demo [Keydown Space; Frame 100; Frame 200] (init 0) = Some s /\
    Forall alive (particles s).
Proof.
  assert (Hc : clock_ok 0 [Keydown Space; Frame 100; Frame 200]).
  { cbn. repeat split; now compute. }
  split; [exact E_demo_range|]. split; [exact Hc|].
  exact (particles_in_a_run E_demo 0 [Keydown Space; Frame 100; Frame 200]
           E_demo_range Hc).
Defined.

Lemma snake_drawn_on_canvas_witness :
  clock_ok 0 [Keydown Space; Frame 100; Frame 200] /\
  exists s, run E_demo [Keydown Space; Frame 100; Frame 200] (init 0) = Some s /\
    length (renderSnake s) = length (snake s) /\
    Forall onCanvas (renderSnake s).
Proof.
  assert (Hc : clock_ok 0 [Keydown Space; Frame 100; Frame 200]).
  { cbn. repeat split; now compute. }
  split; [exact Hc|].
  exact (snake_drawn_on_canvas E_demo 0 [Keydown Space; Frame 100; Frame 200] Hc).
Defined.

Lemma snake_drawn_near_witness :
  clock_ok 0 [Keydown Space; Frame 100; Frame 200] /\
  exists s, run E_demo [Keydown Space; Frame 100; Frame 200] (init 0) = Some s /\
    renderSnake s = [(245, 196); (259, 196); (273, 196); (287, 196)].
Proof.
  assert (Hc : clock_ok 0 [Keydown Space; Frame 100; Frame 200]).
  { cbn. repeat split; now compute. }
  split; [exact Hc|].
  destruct (snake_drawn_near E_demo 0 [Keydown Space; Frame 100; Frame 200] Hc)
    as (s & Hs & _).
  exists s. split; [exact Hs|].
  vm_compute in Hs. injection Hs as <-. vm_compute. reflexivity.
Defined.

Lemma keydown_effect_witness :
  playing started = true /\ keydown E_demo Space started = started.
Proof.
  assert (Hp : playing started = true) by (vm_compute; reflexivity).
  split; [exact Hp|].
  exact (proj1 (proj2 (keydown_effect E_demo Space started)) eq_refl Hp).
Defined.

Lemma startNewGame_forgets_witness :
  running (stop at_wall) = running at_wall /\
  particles (stop at_wall) = particles at_wall /\
  lastNow (stop at_wall) = lastNow at_wall /\
  draws (stop at_wall) = draws at_wall /\
  startNewGame E_demo (stop at_wall) = startNewGame E_demo at_wall.
Proof.
  split; [reflexivity|]. split; [reflexivity|]. split; [reflexivity|].
  split; [reflexivity|].
  exact (startNewGame_forgets E_demo (stop at_wall) at_wall
           eq_refl eq_refl eq_refl eq_refl).
Defined.
